(** * Shipwright CLI: pod watcher, log tail and BuildRun flag sanitizer

    A shallow embedding of three Go source files

    - [pkg/shp/flags/buildrun.go]  ([SanitizeBuildRunSpec]),
    - the [reactor] package       ([PodWatcher.Start], [PodWatcher.Stop]),
    - [pkg/shp/tail/tail.go]       ([Tail.Start], [Tail.Stop]),

    together with the properties the design document states about them.

    Conventions.  A Go pointer [*T] is an [option T] ([None] is [nil]); a Go
    [string] is a [string] of bytes; a run-time panic is the [Panic] result of
    the [Res] monad; goroutines are interleaved by an explicit schedule. *)

From Stdlib Require Import ZArith.
From stdpp Require Import base list strings.

Open Scope string_scope.
Open Scope list_scope.

(** ** The Go run time: panics and channels *)

Module GoRuntime.

(** A computation either finishes with a value or panics. *)
Inductive Res (A : Type) : Type :=
| Ok (a : A)
| Panic (msg : string).
Arguments Ok {A} a.
Arguments Panic {A} msg.

Definition bind {A B} (m : Res A) (k : A -> Res B) : Res B :=
  match m with
  | Ok a => k a
  | Panic msg => Panic msg
  end.

Notation "'let!' x ':=' m 'in' k" := (bind m (fun x => k))
  (at level 10, x name, m at level 100, k at level 200, only parsing).

(** [*p]: dereferencing [nil] panics. *)
Definition deref {A} (p : option A) : Res A :=
  match p with
  | Some a => Ok a
  | None => Panic "invalid memory address or nil pointer dereference"
  end.

(** [a && b] evaluates [b] only when [a] is true, [a || b] only when [a] is
    false. *)
Definition andthen (a b : Res bool) : Res bool :=
  let! x := a in if x then b else Ok false.
Definition orelse (a b : Res bool) : Res bool :=
  let! x := a in if x then Ok true else b.

Infix "&&&" := andthen (at level 40, left associativity).
Infix "|||" := orelse (at level 50, left associativity).

Definition isNil {A} (p : option A) : bool :=
  match p with None => true | Some _ => false end.

(** A [chan bool].  Nothing in the three files ever sends on a channel: the
    only operations are [make], [close] and receive. *)
Record Chan : Type := mkChan {
  chan_cap : nat;
  chan_closed : bool
}.

Definition make (cap : nat) : Chan :=
  {| chan_cap := cap; chan_closed := false |}.

(** The builtin [close]: closing a closed channel is a run-time panic. *)
Definition close (c : Chan) : Res Chan :=
  if chan_closed c then Panic "close of closed channel"
  else Ok {| chan_cap := chan_cap c; chan_closed := true |}.

(** A receive [<-c] on a channel nobody sends on can proceed exactly when the
    channel has been closed. *)
Definition recvReady (c : Chan) : bool := chan_closed c.

End GoRuntime.

(** ** pkg/shp/flags/buildrun.go *)

Module Flags.
Import GoRuntime.

(** The API types, with the fields the file reads or writes. *)
Record LocalObjectReference : Type := {
  LocalObjectReference_Name : string
}.

Record BuildRef : Type := {
  BuildRef_Name : string;
  BuildRef_APIVersion : option string
}.

Record ServiceAccount : Type := {
  ServiceAccount_Name : option string;
  ServiceAccount_Generate : option bool
}.

Record Image : Type := {
  Image_Image : string;
  Image_Credentials : option LocalObjectReference;
  Image_Labels : list (string * string);
  Image_Annotations : list (string * string)
}.

(** [metav1.Duration] wraps a [time.Duration], an [int64] of nanoseconds. *)
Record Duration : Type := {
  Duration_Duration : Z
}.

Record EnvVar : Type := {
  EnvVar_Name : string;
  EnvVar_Value : string
}.

(** [Env] is a slice: [None] is the [nil] slice, [Some []] an empty one. *)
Record BuildRunSpec : Type := {
  Spec_BuildRef : option BuildRef;
  Spec_ServiceAccount : option ServiceAccount;
  Spec_Timeout : option Duration;
  Spec_Output : option Image;
  Spec_Env : option (list EnvVar)
}.

Definition len {A} (s : option (list A)) : nat :=
  match s with
  | None => 0
  | Some l => length l
  end.

Definition set_BuildRef (v : option BuildRef) (br : BuildRunSpec) : BuildRunSpec :=
  {| Spec_BuildRef := v; Spec_ServiceAccount := Spec_ServiceAccount br;
     Spec_Timeout := Spec_Timeout br; Spec_Output := Spec_Output br;
     Spec_Env := Spec_Env br |}.

Definition set_ServiceAccount (v : option ServiceAccount) (br : BuildRunSpec) : BuildRunSpec :=
  {| Spec_BuildRef := Spec_BuildRef br; Spec_ServiceAccount := v;
     Spec_Timeout := Spec_Timeout br; Spec_Output := Spec_Output br;
     Spec_Env := Spec_Env br |}.

Definition set_Timeout (v : option Duration) (br : BuildRunSpec) : BuildRunSpec :=
  {| Spec_BuildRef := Spec_BuildRef br; Spec_ServiceAccount := Spec_ServiceAccount br;
     Spec_Timeout := v; Spec_Output := Spec_Output br;
     Spec_Env := Spec_Env br |}.

Definition set_Output (v : option Image) (br : BuildRunSpec) : BuildRunSpec :=
  {| Spec_BuildRef := Spec_BuildRef br; Spec_ServiceAccount := Spec_ServiceAccount br;
     Spec_Timeout := Spec_Timeout br; Spec_Output := v;
     Spec_Env := Spec_Env br |}.

Definition set_Env (v : option (list EnvVar)) (br : BuildRunSpec) : BuildRunSpec :=
  {| Spec_BuildRef := Spec_BuildRef br; Spec_ServiceAccount := Spec_ServiceAccount br;
     Spec_Timeout := Spec_Timeout br; Spec_Output := Spec_Output br;
     Spec_Env := v |}.

Definition set_Credentials (v : option LocalObjectReference) (o : Image) : Image :=
  {| Image_Image := Image_Image o; Image_Credentials := v;
     Image_Labels := Image_Labels o; Image_Annotations := Image_Annotations o |}.

(** [if br.BuildRef != nil { if Name == "" && APIVersion != nil &&
    *APIVersion == "" { br.BuildRef = nil } }] *)
Definition sanitizeBuildRef (br : BuildRunSpec) : Res BuildRunSpec :=
  if negb (isNil (Spec_BuildRef br)) then
    let! ref := deref (Spec_BuildRef br) in
    let! c := Ok (String.eqb (BuildRef_Name ref) "")
         &&& Ok (negb (isNil (BuildRef_APIVersion ref)))
         &&& (let! v := deref (BuildRef_APIVersion ref) in Ok (String.eqb v "")) in
    if c then Ok (set_BuildRef None br) else Ok br
  else Ok br.

(** [if br.ServiceAccount != nil { if (Name == nil || *Name == "") &&
    (Generate == nil || !*Generate) { br.ServiceAccount = nil } }] *)
Definition sanitizeServiceAccount (br : BuildRunSpec) : Res BuildRunSpec :=
  if negb (isNil (Spec_ServiceAccount br)) then
    let! sa := deref (Spec_ServiceAccount br) in
    let! c := (Ok (isNil (ServiceAccount_Name sa))
            ||| (let! v := deref (ServiceAccount_Name sa) in Ok (String.eqb v "")))
         &&& (Ok (isNil (ServiceAccount_Generate sa))
            ||| (let! g := deref (ServiceAccount_Generate sa) in Ok (negb g))) in
    if c then Ok (set_ServiceAccount None br) else Ok br
  else Ok br.

(** [if br.Output != nil { if Credentials != nil && Credentials.Name == ""
    { br.Output.Credentials = nil }; if Image == "" && Credentials == nil
    { br.Output = nil } }].  The first assignment writes through the
    pointer [br.Output]; the second test reads the field just written. *)
Definition sanitizeOutput (br : BuildRunSpec) : Res BuildRunSpec :=
  if negb (isNil (Spec_Output br)) then
    let! o := deref (Spec_Output br) in
    let! c1 := Ok (negb (isNil (Image_Credentials o)))
          &&& (let! cr := deref (Image_Credentials o) in
               Ok (String.eqb (LocalObjectReference_Name cr) "")) in
    let o1 := if c1 then set_Credentials None o else o in
    let br1 := set_Output (Some o1) br in
    let! o2 := deref (Spec_Output br1) in
    let! c2 := Ok (String.eqb (Image_Image o2) "")
          &&& Ok (isNil (Image_Credentials o2)) in
    if c2 then Ok (set_Output None br1) else Ok br1
  else Ok br.

(** [if br.Timeout != nil && br.Timeout.Duration == 0 { br.Timeout = nil }] *)
Definition sanitizeTimeout (br : BuildRunSpec) : Res BuildRunSpec :=
  let! c := Ok (negb (isNil (Spec_Timeout br)))
       &&& (let! t := deref (Spec_Timeout br) in Ok (Z.eqb (Duration_Duration t) 0)) in
  if c then Ok (set_Timeout None br) else Ok br.

(** [if len(br.Env) == 0 { br.Env = nil }] *)
Definition sanitizeEnv (br : BuildRunSpec) : Res BuildRunSpec :=
  if Nat.eqb (len (Spec_Env br)) 0 then Ok (set_Env None br) else Ok br.

(** [SanitizeBuildRunSpec] updates the structure its argument points to.  The
    argument is the pointer, the result the structure it points to once the
    call has returned ([None] for the [nil] pointer, which points to
    nothing). *)
Definition SanitizeBuildRunSpec (br : option BuildRunSpec) : Res (option BuildRunSpec) :=
  if isNil br then Ok None
  else
    let! s0 := deref br in
    let! s1 := sanitizeBuildRef s0 in
    let! s2 := sanitizeServiceAccount s1 in
    let! s3 := sanitizeOutput s2 in
    let! s4 := sanitizeTimeout s3 in
    let! s5 := sanitizeEnv s4 in
    Ok (Some s5).

(** What the sanitizer treats as the zero value of each optional
    sub-structure. *)
Definition zeroBuildRef (r : BuildRef) : Prop :=
  BuildRef_Name r = "" /\ BuildRef_APIVersion r = Some "".

Definition zeroServiceAccount (sa : ServiceAccount) : Prop :=
  (ServiceAccount_Name sa = None \/ ServiceAccount_Name sa = Some "") /\
  (ServiceAccount_Generate sa = None \/ ServiceAccount_Generate sa = Some false).

Definition zeroCredentials (c : LocalObjectReference) : Prop :=
  LocalObjectReference_Name c = "".

Definition noCredentials (o : Image) : Prop :=
  match Image_Credentials o with
  | None => True
  | Some c => zeroCredentials c
  end.

Definition zeroOutput (o : Image) : Prop :=
  Image_Image o = "" /\ noCredentials o.

Definition zeroTimeout (t : Duration) : Prop := Duration_Duration t = 0%Z.

(** A sub-structure "with a non-zero field", field by field. *)
Definition nonzeroBuildRef (r : BuildRef) : Prop :=
  BuildRef_Name r <> "" \/
  exists v, BuildRef_APIVersion r = Some v /\ v <> "".

Definition nonzeroServiceAccount (sa : ServiceAccount) : Prop :=
  (exists v, ServiceAccount_Name sa = Some v /\ v <> "") \/
  ServiceAccount_Generate sa = Some true.

Definition nonzeroCredentials (c : LocalObjectReference) : Prop :=
  LocalObjectReference_Name c <> "".

Definition nonzeroOutput (o : Image) : Prop :=
  Image_Image o <> "" \/
  (exists c, Image_Credentials o = Some c /\ nonzeroCredentials c) \/
  Image_Labels o <> [] \/
  Image_Annotations o <> [].

(** The same, over the two fields of [Output] the sanitizer looks at. *)
Definition nonzeroOutputChecked (o : Image) : Prop :=
  Image_Image o <> "" \/
  (exists c, Image_Credentials o = Some c /\ nonzeroCredentials c).

Definition nonzeroTimeout (t : Duration) : Prop := Duration_Duration t <> 0%Z.

(** The credentials an [Output] that stays in place ends up with. *)
Definition keptCredentials (o : Image) : option LocalObjectReference :=
  match Image_Credentials o with
  | Some c => if String.eqb (LocalObjectReference_Name c) "" then None else Some c
  | None => None
  end.

(** The structure [BuildRunSpecFromFlags] allocates, before any flag is
    parsed into it: every optional sub-structure present and empty. *)
Definition emptyOutput : Image :=
  {| Image_Image := "";
     Image_Credentials := Some {| LocalObjectReference_Name := "" |};
     Image_Labels := []; Image_Annotations := [] |}.

Definition emptySpec : BuildRunSpec :=
  {| Spec_BuildRef := Some {| BuildRef_Name := ""; BuildRef_APIVersion := Some "" |};
     Spec_ServiceAccount :=
       Some {| ServiceAccount_Name := Some ""; ServiceAccount_Generate := Some false |};
     Spec_Timeout := Some {| Duration_Duration := 0 |};
     Spec_Output := Some emptyOutput;
     Spec_Env := Some [] |}.

(** The same after a command line that gives one output image label and
    nothing else. *)
Definition labelledOutput : Image :=
  {| Image_Image := "";
     Image_Credentials := Some {| LocalObjectReference_Name := "" |};
     Image_Labels := [("maintainer", "team")]; Image_Annotations := [] |}.

Definition labelledSpec : BuildRunSpec := set_Output (Some labelledOutput) emptySpec.

Definition nilSpec : BuildRunSpec :=
  {| Spec_BuildRef := None; Spec_ServiceAccount := None; Spec_Timeout := None;
     Spec_Output := None; Spec_Env := None |}.

(** Field by field, what a sanitized structure holds. *)
Definition keptBuildRef (p : option BuildRef) : option BuildRef :=
  match p with
  | Some r =>
      match BuildRef_APIVersion r with
      | Some v => if String.eqb (BuildRef_Name r) "" && String.eqb v "" then None else Some r
      | None => Some r
      end
  | None => None
  end.

Definition keptServiceAccount (p : option ServiceAccount) : option ServiceAccount :=
  match p with
  | Some sa =>
      if match ServiceAccount_Name sa with
         | None => true
         | Some v => String.eqb v ""
         end
         && match ServiceAccount_Generate sa with
            | None => true
            | Some g => negb g
            end
      then None else Some sa
  | None => None
  end.

Definition keptOutput (p : option Image) : option Image :=
  match p with
  | Some o =>
      if String.eqb (Image_Image o) "" && isNil (keptCredentials o)
      then None else Some (set_Credentials (keptCredentials o) o)
  | None => None
  end.

Definition keptTimeout (p : option Duration) : option Duration :=
  match p with
  | Some t => if Z.eqb (Duration_Duration t) 0 then None else Some t
  | None => None
  end.

Definition keptEnv (e : option (list EnvVar)) : option (list EnvVar) :=
  if Nat.eqb (len e) 0 then None else e.

Definition sanitized (br : BuildRunSpec) : BuildRunSpec :=
  {| Spec_BuildRef := keptBuildRef (Spec_BuildRef br);
     Spec_ServiceAccount := keptServiceAccount (Spec_ServiceAccount br);
     Spec_Timeout := keptTimeout (Spec_Timeout br);
     Spec_Output := keptOutput (Spec_Output br);
     Spec_Env := keptEnv (Spec_Env br) |}.

(** The claim that zero values go: each optional sub-structure at its zero
    value is [nil] afterwards. *)
Definition stripsZero (br br' : BuildRunSpec) : Prop :=
  (forall r, Spec_BuildRef br = Some r -> zeroBuildRef r -> Spec_BuildRef br' = None) /\
  (forall sa, Spec_ServiceAccount br = Some sa -> zeroServiceAccount sa ->
     Spec_ServiceAccount br' = None) /\
  (forall o c, Spec_Output br = Some o -> Image_Credentials o = Some c ->
     zeroCredentials c ->
     forall o', Spec_Output br' = Some o' -> Image_Credentials o' = None) /\
  (forall o, Spec_Output br = Some o -> zeroOutput o -> Spec_Output br' = None) /\
  (forall t, Spec_Timeout br = Some t -> zeroTimeout t -> Spec_Timeout br' = None) /\
  (len (Spec_Env br) = 0 -> Spec_Env br' = None).

(** The claim that the rest stays, for a given reading [nz] of "[Output] has
    a non-zero field": a sub-structure with a non-zero field is in place
    afterwards, an [Output] up to its credentials, which are sanitized
    themselves. *)
Definition keepsNonzero (nz : Image -> Prop) (br br' : BuildRunSpec) : Prop :=
  (forall r, Spec_BuildRef br = Some r -> nonzeroBuildRef r ->
     Spec_BuildRef br' = Some r) /\
  (forall sa, Spec_ServiceAccount br = Some sa -> nonzeroServiceAccount sa ->
     Spec_ServiceAccount br' = Some sa) /\
  (forall o c, Spec_Output br = Some o -> Image_Credentials o = Some c ->
     nonzeroCredentials c ->
     exists o', Spec_Output br' = Some o' /\ Image_Credentials o' = Some c) /\
  (forall o, Spec_Output br = Some o -> nz o ->
     Spec_Output br' = Some (set_Credentials (keptCredentials o) o)) /\
  (forall t, Spec_Timeout br = Some t -> nonzeroTimeout t -> Spec_Timeout br' = Some t) /\
  (len (Spec_Env br) <> 0 -> Spec_Env br' = Spec_Env br).

(** A structure in which nothing is left for the sanitizer to strip. *)
Definition clean (br : BuildRunSpec) : Prop :=
  (forall r, Spec_BuildRef br = Some r -> ~ zeroBuildRef r) /\
  (forall sa, Spec_ServiceAccount br = Some sa -> ~ zeroServiceAccount sa) /\
  (forall o, Spec_Output br = Some o ->
     ~ zeroOutput o /\
     forall c, Image_Credentials o = Some c -> ~ zeroCredentials c) /\
  (forall t, Spec_Timeout br = Some t -> ~ zeroTimeout t) /\
  Spec_Env br <> Some [].

(** [br'] holds nothing that [br] did not hold: each field is [nil] or the
    field of [br], an [Output] that stays keeping its image, labels and
    annotations. *)
Definition onlyRemoves (br br' : BuildRunSpec) : Prop :=
  (Spec_BuildRef br' = None \/ Spec_BuildRef br' = Spec_BuildRef br) /\
  (Spec_ServiceAccount br' = None \/ Spec_ServiceAccount br' = Spec_ServiceAccount br) /\
  (Spec_Timeout br' = None \/ Spec_Timeout br' = Spec_Timeout br) /\
  (Spec_Env br' = None \/ Spec_Env br' = Spec_Env br) /\
  (Spec_Output br' = None \/
   exists o o', Spec_Output br = Some o /\ Spec_Output br' = Some o' /\
     Image_Image o' = Image_Image o /\
     Image_Labels o' = Image_Labels o /\
     Image_Annotations o' = Image_Annotations o /\
     (Image_Credentials o' = None \/ Image_Credentials o' = Image_Credentials o)).

End Flags.

(** ** The reactor package: PodWatcher *)

Module Reactor.
Import GoRuntime.

(** [watch.EventType] is a string type; the API server sends these five. *)
Definition EventType : Type := string.
Definition Added : EventType := "ADDED".
Definition Modified : EventType := "MODIFIED".
Definition Deleted : EventType := "DELETED".
Definition Bookmark : EventType := "BOOKMARK".
Definition Error : EventType := "ERROR".

(** Which of the three hook fields a call went to. *)
Inductive HookId : Type := HAdded | HModified | HDeleted.

Section PodWatcher.

(** [Pod] is [corev1.Pod], which the watcher never looks into; [Err] are the
    non-nil [error] values; [U] is whatever state the caller's closures
    capture and update. *)
Variables Pod Err U : Type.

Definition PodPtr : Type := option Pod.

(** [runtime.Object], an interface value: [nil], a [*corev1.Pod] (possibly a
    nil pointer of that type), or a value of some other kind. *)
Inductive Object : Type :=
| ONil
| OPod (pod : PodPtr)
| OOther (kind : string).

Record Event : Type := {
  Event_Type : EventType;
  Event_Object : Object
}.

Definition SkipPodFn : Type := PodPtr -> U -> bool * U.
Definition OnPodEventFn : Type := PodPtr -> U -> option Err * U.

Record PodWatcher : Type := {
  stopCh : Chan;
  skipPodFn : option SkipPodFn;
  onPodAddedFn : option OnPodEventFn;
  onPodModifiedFn : option OnPodEventFn;
  onPodDeletedFn : option OnPodEventFn
}.

Definition WithSkipPodFn (fn : option SkipPodFn) (p : PodWatcher) : PodWatcher :=
  {| stopCh := stopCh p; skipPodFn := fn; onPodAddedFn := onPodAddedFn p;
     onPodModifiedFn := onPodModifiedFn p; onPodDeletedFn := onPodDeletedFn p |}.

Definition WithOnPodAddedFn (fn : option OnPodEventFn) (p : PodWatcher) : PodWatcher :=
  {| stopCh := stopCh p; skipPodFn := skipPodFn p; onPodAddedFn := fn;
     onPodModifiedFn := onPodModifiedFn p; onPodDeletedFn := onPodDeletedFn p |}.

Definition WithOnPodModifiedFn (fn : option OnPodEventFn) (p : PodWatcher) : PodWatcher :=
  {| stopCh := stopCh p; skipPodFn := skipPodFn p; onPodAddedFn := onPodAddedFn p;
     onPodModifiedFn := fn; onPodDeletedFn := onPodDeletedFn p |}.

Definition WithOnPodDeletedFn (fn : option OnPodEventFn) (p : PodWatcher) : PodWatcher :=
  {| stopCh := stopCh p; skipPodFn := skipPodFn p; onPodAddedFn := onPodAddedFn p;
     onPodModifiedFn := onPodModifiedFn p; onPodDeletedFn := fn |}.

(** [NewPodWatcher]: [watch] is the answer of the API server to the [Watch]
    request. *)
Definition NewPodWatcher (watch : option Err) : Err + PodWatcher :=
  match watch with
  | Some err => inl err
  | None => inr {| stopCh := make 0; skipPodFn := None; onPodAddedFn := None;
                   onPodModifiedFn := None; onPodDeletedFn := None |}
  end.

(** [Stop]: [close(p.stopCh)]. *)
Definition Stop (p : PodWatcher) : Res PodWatcher :=
  let! ch := close (stopCh p) in
  Ok {| stopCh := ch; skipPodFn := skipPodFn p; onPodAddedFn := onPodAddedFn p;
        onPodModifiedFn := onPodModifiedFn p; onPodDeletedFn := onPodDeletedFn p |}.

(** What the callbacks were called with, in the order of the calls. *)
Inductive Call : Type :=
| SkipCalled (pod : PodPtr)
| HookCalled (h : HookId) (pod : PodPtr).

(** Everything outside the watcher that a run of [Start] changes: the state
    of the closures, the record of their calls, and how often [Stop] was
    called on the [watch.Interface]. *)
Record World : Type := {
  user : U;
  calls : list Call;
  watcherStops : nat
}.

Definition called (c : Call) (u : U) (w : World) : World :=
  {| user := u; calls := calls w ++ [c]; watcherStops := watcherStops w |}.

Definition stopWatcher (w : World) : World :=
  {| user := user w; calls := calls w; watcherStops := S (watcherStops w) |}.

(** One turn of the loop either goes round again or returns. *)
Inductive Turn : Type :=
| Continue (w : World)
| Return (pod : PodPtr) (err : option Err) (w : World).

(** [p.skipPodFn != nil && p.skipPodFn(pod)] *)
Definition checkSkip (p : PodWatcher) (pod : PodPtr) (w : World) : bool * World :=
  match skipPodFn p with
  | None => (false, w)
  | Some fn => let '(b, u) := fn pod (user w) in (b, called (SkipCalled pod) u w)
  end.

(** [if fn != nil { if err := fn(pod); err != nil { return pod, err } }] *)
Definition callHook (fn : option OnPodEventFn) (h : HookId) (pod : PodPtr)
    (w : World) : Turn :=
  match fn with
  | None => Continue w
  | Some f =>
      let '(err, u) := f pod (user w) in
      let w' := called (HookCalled h pod) u w in
      match err with
      | Some e => Return pod (Some e) w'
      | None => Continue w'
      end
  end.

(** The [case event := <-p.watcher.ResultChan()] branch. *)
Definition onEvent (p : PodWatcher) (event : Event) (w : World) : Turn :=
  match Event_Object event with
  | ONil => Continue w
  | OOther _ => Continue w
  | OPod pod =>
      let '(skip, w1) := checkSkip p pod w in
      if skip then Continue w1
      else if String.eqb (Event_Type event) Added then callHook (onPodAddedFn p) HAdded pod w1
      else if String.eqb (Event_Type event) Modified then callHook (onPodModifiedFn p) HModified pod w1
      else if String.eqb (Event_Type event) Deleted then callHook (onPodDeletedFn p) HDeleted pod w1
      else Continue w1
  end.

Definition turnWorld (t : Turn) : World :=
  match t with
  | Continue w => w
  | Return _ _ w => w
  end.

(** The case a [select] ran. *)
Inductive Select : Type :=
| RecvEvent (event : Event)
| CtxDone
| RecvStop.

(** [Start] has returned, or it waits in [select] for the next case. *)
Inductive Outcome : Type :=
| Returned (pod : PodPtr) (err : option Err) (w : World)
| Waiting (w : World).

(** [Start], given the cases its [select] statements run, one per turn of
    the loop. *)
Fixpoint Start (p : PodWatcher) (sel : list Select) (w : World) : Outcome :=
  match sel with
  | [] => Waiting w
  | RecvEvent event :: rest =>
      match onEvent p event w with
      | Continue w' => Start p rest w'
      | Return pod err w' => Returned pod err w'
      end
  | CtxDone :: _ => Returned None None (stopWatcher w)
  | RecvStop :: _ => Returned None None (stopWatcher w)
  end.

Definition world (o : Outcome) : World :=
  match o with
  | Returned _ _ w => w
  | Waiting w => w
  end.

(** The hook registered for a tag, if any. *)
Definition hookFor (p : PodWatcher) (t : EventType) : option (HookId * OnPodEventFn) :=
  if String.eqb t Added then pair HAdded <$> onPodAddedFn p
  else if String.eqb t Modified then pair HModified <$> onPodModifiedFn p
  else if String.eqb t Deleted then pair HDeleted <$> onPodDeletedFn p
  else None.

(** The notifications among the cases, in the order of delivery. *)
Fixpoint notifications (sel : list Select) : list Event :=
  match sel with
  | [] => []
  | RecvEvent e :: rest => e :: notifications rest
  | _ :: rest => notifications rest
  end.

(** The one hook call a notification can give rise to. *)
Definition candidate (p : PodWatcher) (e : Event) : list (HookId * PodPtr) :=
  match Event_Object e with
  | OPod pod =>
      match hookFor p (Event_Type e) with
      | Some (h, _) => [(h, pod)]
      | None => []
      end
  | _ => []
  end.

(** The hook calls of a record, without the calls of the skip predicate. *)
Fixpoint hookCalls (cs : list Call) : list (HookId * PodPtr) :=
  match cs with
  | [] => []
  | HookCalled h pod :: rest => (h, pod) :: hookCalls rest
  | SkipCalled _ :: rest => hookCalls rest
  end.

(** What a receive from a closed result channel yields: the zero [Event]. *)
Definition zeroEvent : Event :=
  {| Event_Type := ""; Event_Object := ONil |}.

End PodWatcher.

Arguments ONil {Pod}.
Arguments OPod {Pod} pod.
Arguments OOther {Pod} kind.
Arguments Event_Type {Pod} _.
Arguments Event_Object {Pod} _.
Arguments stopCh {Pod Err U} _.
Arguments skipPodFn {Pod Err U} _.
Arguments onPodAddedFn {Pod Err U} _.
Arguments onPodModifiedFn {Pod Err U} _.
Arguments onPodDeletedFn {Pod Err U} _.
Arguments WithSkipPodFn {Pod Err U} fn p.
Arguments WithOnPodAddedFn {Pod Err U} fn p.
Arguments WithOnPodModifiedFn {Pod Err U} fn p.
Arguments WithOnPodDeletedFn {Pod Err U} fn p.
Arguments NewPodWatcher {Pod Err U} watch.
Arguments Stop {Pod Err U} p.
Arguments SkipCalled {Pod} pod.
Arguments HookCalled {Pod} h pod.
Arguments user {Pod U} _.
Arguments calls {Pod U} _.
Arguments watcherStops {Pod U} _.
Arguments called {Pod U} c u w.
Arguments stopWatcher {Pod U} w.
Arguments Continue {Pod Err U} w.
Arguments Return {Pod Err U} pod err w.
Arguments checkSkip {Pod Err U} p pod w.
Arguments callHook {Pod Err U} fn h pod w.
Arguments onEvent {Pod Err U} p event w.
Arguments turnWorld {Pod Err U} t.
Arguments RecvEvent {Pod} event.
Arguments CtxDone {Pod}.
Arguments RecvStop {Pod}.
Arguments Returned {Pod Err U} pod err w.
Arguments Waiting {Pod Err U} w.
Arguments Start {Pod Err U} p sel w.
Arguments world {Pod Err U} o.
Arguments hookFor {Pod Err U} p t.
Arguments notifications {Pod} sel.
Arguments candidate {Pod Err U} p e.
Arguments hookCalls {Pod} cs.
Arguments zeroEvent {Pod}.

(** A watcher to try things on: pods are names, the closures count their
    calls; pods named "init" are skipped, additions are accepted,
    modifications are rejected, nothing is registered for deletions. *)
Definition sampleWatcher : PodWatcher string string nat :=
  {| stopCh := make 0;
     skipPodFn := Some (fun pod u =>
       (match pod with Some n => String.eqb n "init" | None => true end, u));
     onPodAddedFn := Some (fun _ u => (None, S u));
     onPodModifiedFn := Some (fun _ u => (Some "pod failed", S u));
     onPodDeletedFn := None |}.

Definition freshWorld : World string nat :=
  {| user := 0; calls := []; watcherStops := 0 |}.

Definition ev (t : EventType) (name : string) : Event string :=
  {| Event_Type := t; Event_Object := OPod (Some name) |}.

End Reactor.

(** ** pkg/shp/tail/tail.go *)

Module Tail.
Import GoRuntime.

(** [strings.HasPrefix]: [len(s) >= len(prefix) && s[:len(prefix)] == prefix] *)
Definition HasPrefix (s prefix : string) : bool :=
  (String.length prefix <=? String.length s)%nat
  && String.eqb (String.substring 0 (String.length prefix) s) prefix.

(** [strings.TrimPrefix]: [if HasPrefix(s, prefix) { return s[len(prefix):] };
    return s] *)
Definition TrimPrefix (s prefix : string) : string :=
  if HasPrefix s prefix
  then String.substring (String.length prefix) (String.length s - String.length prefix) s
  else s.

Definition LF : string := String (Ascii.ascii_of_nat 10) "".

(** [fmt.Sprintf("[%s] %s\n", containerName, text)] *)
Definition formatLine (containerName text : string) : string :=
  "[" +:+ containerName +:+ "] " +:+ text +:+ LF.

(** [fmt.Sprintln(err)], an error being shown by its message. *)
Definition formatErr (err : string) : string := err +:+ LF.

(** The goroutine that reads one log stream (lines 38 to 60): it has yet to
    open the stream, or it is in the [for sc.Scan()] loop with the container
    name it computed, or it has returned. *)
Inductive Reader : Type :=
| Opening (ns podName container : string)
| Scanning (containerName : string)
| Finished.

(** A goroutine that waits on a channel and then does one thing. *)
Inductive Waiter : Type := NotSpawned | Pending | Fired.

(** What one call of [Start] sets up: the reader, the goroutine that closes
    the stream once [stopCh] can be received from (lines 50 to 53), the
    goroutine that closes [stopCh] once the context is done (lines 61 to
    64), and the number of [Close] calls the stream has seen. *)
Record Attachment : Type := {
  reader : Reader;
  closer : Waiter;
  bridge : Waiter;
  streamCloses : nat
}.

(** A [Tail] with the objects it refers to: the context, the two writers
    (each a list of the [Write] calls it received) and the goroutines. *)
Record Sys : Type := {
  ctxDone : bool;
  stopCh : Chan;
  stdout : list string;
  stderr : list string;
  atts : list Attachment
}.

Definition NewTail : Sys :=
  {| ctxDone := false; stopCh := make 1; stdout := []; stderr := []; atts := [] |}.

Definition set_atts (l : list Attachment) (s : Sys) : Sys :=
  {| ctxDone := ctxDone s; stopCh := stopCh s; stdout := stdout s;
     stderr := stderr s; atts := l |}.

Definition set_stopCh (c : Chan) (s : Sys) : Sys :=
  {| ctxDone := ctxDone s; stopCh := c; stdout := stdout s;
     stderr := stderr s; atts := atts s |}.

Definition write_stdout (chunk : string) (s : Sys) : Sys :=
  {| ctxDone := ctxDone s; stopCh := stopCh s; stdout := stdout s ++ [chunk];
     stderr := stderr s; atts := atts s |}.

Definition write_stderr (chunk : string) (s : Sys) : Sys :=
  {| ctxDone := ctxDone s; stopCh := stopCh s; stdout := stdout s;
     stderr := stderr s ++ [chunk]; atts := atts s |}.

Definition cancel (s : Sys) : Sys :=
  {| ctxDone := true; stopCh := stopCh s; stdout := stdout s;
     stderr := stderr s; atts := atts s |}.

Definition set_reader (r : Reader) (a : Attachment) : Attachment :=
  {| reader := r; closer := closer a; bridge := bridge a;
     streamCloses := streamCloses a |}.

Definition set_closer (w : Waiter) (a : Attachment) : Attachment :=
  {| reader := reader a; closer := w; bridge := bridge a;
     streamCloses := streamCloses a |}.

Definition set_bridge (w : Waiter) (a : Attachment) : Attachment :=
  {| reader := reader a; closer := closer a; bridge := w;
     streamCloses := streamCloses a |}.

Definition closeStream (a : Attachment) : Attachment :=
  {| reader := reader a; closer := closer a; bridge := bridge a;
     streamCloses := S (streamCloses a) |}.

(** [Start]: two [go] statements and nothing else; it returns no value. *)
Definition Start (ns podName container : string) (s : Sys) : Sys :=
  set_atts (atts s ++ [{| reader := Opening ns podName container;
                          closer := NotSpawned; bridge := Pending;
                          streamCloses := 0 |}]) s.

(** [Stop]: [close(t.stopCh)]. *)
Definition Stop (s : Sys) : Res Sys :=
  let! ch := close (stopCh s) in Ok (set_stopCh ch s).

(** What the scheduler and the outside world can do next. *)
Inductive Action : Type :=
| CallStart (ns podName container : string)
| CallStop
| Cancel
| Open (i : nat) (answer : option string)
| Scan (i : nat) (text : option string)
| Closer (i : nat)
| Bridge (i : nat).

(** Lines 39 to 56 of reader [i]; [answer] is the error of the log request,
    if it failed. *)
Definition doOpen (i : nat) (answer : option string) (s : Sys) : Sys :=
  match atts s !! i with
  | Some a =>
      match reader a with
      | Opening ns podName container =>
          match answer with
          | Some err =>
              write_stderr (formatErr err) (set_atts (<[i := set_reader Finished a]> (atts s)) s)
          | None =>
              set_atts (<[i := set_closer Pending
                                 (set_reader (Scanning (TrimPrefix container "step-")) a)]>
                          (atts s)) s
          end
      | _ => s
      end
  | None => s
  end.

(** One [sc.Scan()] of reader [i]: it gives a line, or it gives [false] (end
    of stream, read error, stream closed), after which the goroutine returns
    and the deferred [stream.Close()] runs. *)
Definition doScan (i : nat) (text : option string) (s : Sys) : Sys :=
  match atts s !! i with
  | Some a =>
      match reader a with
      | Scanning containerName =>
          match text with
          | Some line => write_stdout (formatLine containerName line) s
          | None => set_atts (<[i := closeStream (set_reader Finished a)]> (atts s)) s
          end
      | _ => s
      end
  | None => s
  end.

(** [<-t.stopCh; stream.Close()] *)
Definition doCloser (i : nat) (s : Sys) : Sys :=
  match atts s !! i with
  | Some a =>
      match closer a with
      | Pending =>
          if recvReady (stopCh s)
          then set_atts (<[i := closeStream (set_closer Fired a)]> (atts s)) s
          else s
      | _ => s
      end
  | None => s
  end.

(** [<-t.ctx.Done(); close(t.stopCh)] *)
Definition doBridge (i : nat) (s : Sys) : Res Sys :=
  match atts s !! i with
  | Some a =>
      match bridge a with
      | Pending =>
          if ctxDone s
          then let! ch := close (stopCh s) in
               Ok (set_stopCh ch (set_atts (<[i := set_bridge Fired a]> (atts s)) s))
          else Ok s
      | _ => Ok s
      end
  | None => Ok s
  end.

(** One step of the whole; a goroutine that cannot proceed stays where it
    is, a panic ends the program. *)
Definition step (a : Action) (s : Sys) : Res Sys :=
  match a with
  | CallStart ns podName container => Ok (Start ns podName container s)
  | CallStop => Stop s
  | Cancel => Ok (cancel s)
  | Open i answer => Ok (doOpen i answer s)
  | Scan i text => Ok (doScan i text s)
  | Closer i => Ok (doCloser i s)
  | Bridge i => doBridge i s
  end.

Fixpoint run (sched : list Action) (s : Sys) : Res Sys :=
  match sched with
  | [] => Ok s
  | a :: rest => let! s' := step a s in run rest s'
  end.

(** The reader of attachment [i], if there is one. *)
Definition readerOf (i : nat) (s : Sys) : option Reader :=
  reader <$> atts s !! i.

(** Two attachments: "step-build" has yet to open its stream, "step-push"
    is reading. *)
Definition twoAttached : Sys :=
  doOpen 1 None (Start "ns" "pod" "step-push" (Start "ns" "pod" "step-build" NewTail)).

(** A reader started for container [c] keeps to that name. *)
Definition nameOk (c : string) (r : Reader) : Prop :=
  match r with
  | Opening _ _ container => container = c
  | Scanning containerName => containerName = TrimPrefix c "step-"
  | Finished => True
  end.

(** What the goroutine of lines 50 to 53 does to an attachment once the stop
    channel can be received from. *)
Definition closeIfPending (a : Attachment) : Attachment :=
  match closer a with
  | Pending => closeStream (set_closer Fired a)
  | _ => a
  end.

(** The actions that execute [close(t.stopCh)]. *)
Definition closes (act : Action) : bool :=
  match act with
  | CallStop | Bridge _ => true
  | _ => false
  end.

(** How often [Close] was called on the stream of an attachment, by where
    its reader and its closing goroutine are: the reader calls it when it
    returns from the loop, the goroutine when it has received from
    [stopCh]. *)
Definition closeAccount (a : Attachment) : Prop :=
  match reader a, closer a with
  | Opening _ _ _, NotSpawned => streamCloses a = 0
  | Scanning _, Pending => streamCloses a = 0
  | Scanning _, Fired => streamCloses a = 1
  | Finished, NotSpawned => streamCloses a = 0
  | Finished, Pending => streamCloses a = 1
  | Finished, Fired => streamCloses a = 2
  | _, _ => False
  end.

Fixpoint closings (sched : list Action) : nat :=
  match sched with
  | [] => 0
  | act :: rest => (if closes act then 1 else 0) + closings rest
  end.

End Tail.

(** * Properties *)

(** ** The sanitizer *)

Module FlagsSpec.
Import GoRuntime Flags.

Lemma sanitizeBuildRef_eq (br : BuildRunSpec) :
  sanitizeBuildRef br = Ok (set_BuildRef (keptBuildRef (Spec_BuildRef br)) br).
Proof.
  unfold sanitizeBuildRef, keptBuildRef.
  destruct br as [[[n [v|]]|] sa t o e]; cbn; try reflexivity.
  - destruct (String.eqb n ""); cbn; [destruct (String.eqb v "")|]; reflexivity.
  - destruct (String.eqb n ""); reflexivity.
Qed.

Lemma sanitizeServiceAccount_eq (br : BuildRunSpec) :
  sanitizeServiceAccount br =
  Ok (set_ServiceAccount (keptServiceAccount (Spec_ServiceAccount br)) br).
Proof.
  unfold sanitizeServiceAccount, keptServiceAccount.
  destruct br as [r [[[v|] [[|]|]]|] t o e]; cbn; try reflexivity;
    destruct (String.eqb v ""); reflexivity.
Qed.

Lemma sanitizeOutput_eq (br : BuildRunSpec) :
  sanitizeOutput br = Ok (set_Output (keptOutput (Spec_Output br)) br).
Proof.
  unfold sanitizeOutput, keptOutput, keptCredentials.
  destruct br as [r sa t [[img [[cn]|] ls an]|] e]; cbn; try reflexivity.
  - destruct (String.eqb cn ""); cbn; destruct (String.eqb img ""); reflexivity.
  - destruct (String.eqb img ""); reflexivity.
Qed.

Lemma sanitizeTimeout_eq (br : BuildRunSpec) :
  sanitizeTimeout br = Ok (set_Timeout (keptTimeout (Spec_Timeout br)) br).
Proof.
  unfold sanitizeTimeout, keptTimeout.
  destruct br as [r sa [[d]|] o e]; cbn; [destruct (Z.eqb d 0)|]; reflexivity.
Qed.

Lemma sanitizeEnv_eq (br : BuildRunSpec) :
  sanitizeEnv br = Ok (set_Env (keptEnv (Spec_Env br)) br).
Proof.
  unfold sanitizeEnv, keptEnv.
  destruct br as [r sa t o e]; cbn. destruct (Nat.eqb (len e) 0); reflexivity.
Qed.

(** The five blocks in sequence never panic, every dereference being
    guarded, and each rewrites its own field. *)
Lemma SanitizeBuildRunSpec_eq (br : BuildRunSpec) :
  SanitizeBuildRunSpec (Some br) = Ok (Some (sanitized br)).
Proof.
  unfold SanitizeBuildRunSpec. cbn.
  rewrite sanitizeBuildRef_eq. cbn.
  rewrite sanitizeServiceAccount_eq. cbn.
  rewrite sanitizeOutput_eq. cbn.
  rewrite sanitizeTimeout_eq. cbn.
  rewrite sanitizeEnv_eq. reflexivity.
Qed.

Lemma SanitizeBuildRunSpec_returns (br : option BuildRunSpec) :
  exists br', SanitizeBuildRunSpec br = Ok br'.
Proof.
  destruct br as [br|].
  - exists (Some (sanitized br)). apply SanitizeBuildRunSpec_eq.
  - exists None. reflexivity.
Qed.

Lemma stripsZero_sanitized (br : BuildRunSpec) : stripsZero br (sanitized br).
Proof.
  unfold stripsZero, sanitized; cbn. repeat split.
  - intros r -> [Hn Hv]. cbn. rewrite Hv, Hn. reflexivity.
  - intros sa -> [Hn Hg]. cbn.
    destruct Hn as [-> | ->], Hg as [-> | ->]; reflexivity.
  - intros o c -> Hc Hz o'. cbn. unfold keptCredentials. rewrite Hc, Hz. cbn.
    destruct (String.eqb (Image_Image o) ""); cbn; intros [= <-]; reflexivity.
  - intros o -> [Hi Hc]. cbn. rewrite Hi. unfold keptCredentials, noCredentials in *.
    destruct (Image_Credentials o) as [c|]; [rewrite Hc|]; reflexivity.
  - intros t -> Ht. cbn. rewrite Ht. reflexivity.
  - intros He. unfold keptEnv. rewrite He. reflexivity.
Qed.

Lemma keepsNonzero_sanitized (br : BuildRunSpec) :
  keepsNonzero nonzeroOutputChecked br (sanitized br).
Proof.
  unfold keepsNonzero, sanitized; cbn. repeat split.
  - intros r -> [Hn | [v [Hv Hne]]]; cbn.
    + apply String.eqb_neq in Hn. rewrite Hn.
      destruct (BuildRef_APIVersion r); reflexivity.
    + rewrite Hv. apply String.eqb_neq in Hne. rewrite Hne, andb_false_r. reflexivity.
  - intros sa -> [[v [Hv Hne]] | Hg]; cbn.
    + rewrite Hv. apply String.eqb_neq in Hne. rewrite Hne. reflexivity.
    + rewrite Hg, andb_false_r. reflexivity.
  - intros o c -> Hc Hne. cbn. unfold keptCredentials. rewrite Hc.
    apply String.eqb_neq in Hne. rewrite Hne. cbn. rewrite andb_false_r.
    eexists; split; reflexivity.
  - intros o -> [Hi | [c [Hc Hne]]]; cbn.
    + apply String.eqb_neq in Hi. rewrite Hi. reflexivity.
    + unfold keptCredentials. rewrite Hc. apply String.eqb_neq in Hne. rewrite Hne.
      cbn. rewrite andb_false_r. reflexivity.
  - intros t -> Ht. cbn. apply Z.eqb_neq in Ht. rewrite Ht. reflexivity.
  - intros He. unfold keptEnv. apply Nat.eqb_neq in He. rewrite He. reflexivity.
Qed.

(** C8 (as amended).  On every [BuildRunSpec] the sanitizer returns, having
    replaced with [nil] each optional sub-structure at its zero value
    ([BuildRef] with empty name and empty API version, [ServiceAccount] with
    empty or unset name and false or unset generate flag, the [Credentials]
    of [Output] with empty name, [Output] with empty image and no
    credentials left, [Timeout] of zero duration, an [Env] of length zero),
    and having left in place every sub-structure with a non-zero field among
    those it tests; for [Output] these are the image and the credentials,
    not the labels and annotations. *)
Theorem SanitizeBuildRunSpec_strips_zero_keeps_checked (br : BuildRunSpec) :
  exists br',
    SanitizeBuildRunSpec (Some br) = Ok (Some br') /\
    stripsZero br br' /\
    keepsNonzero nonzeroOutputChecked br br'.
Proof.
  exists (sanitized br). split; [apply SanitizeBuildRunSpec_eq|].
  split; [apply stripsZero_sanitized | apply keepsNonzero_sanitized].
Qed.

(** C8 as it is worded fails: an [Output] whose only non-zero field is a
    label has a non-zero field, and is replaced with [nil]. *)
Lemma SanitizeBuildRunSpec_drops_labelled_output :
  nonzeroOutput labelledOutput /\
  Spec_Output labelledSpec = Some labelledOutput /\
  SanitizeBuildRunSpec (Some labelledSpec) = Ok (Some nilSpec) /\
  ~ keepsNonzero nonzeroOutput labelledSpec nilSpec.
Proof.
  split; [right; right; left; discriminate|].
  split; [reflexivity|]. split; [reflexivity|].
  intros (_ & _ & _ & Hout & _).
  specialize (Hout labelledOutput eq_refl). cbn in Hout.
  discriminate Hout. right; right; left; discriminate.
Qed.

(** C9.  On the [nil] pointer the sanitizer returns at once, without a
    panic, and there is no structure it could have changed. *)
Theorem SanitizeBuildRunSpec_nil : SanitizeBuildRunSpec None = Ok None.
Proof. reflexivity. Qed.

(** C10.  An [Output] with an empty image and with credentials that are
    absent or have an empty name is replaced with [nil], whatever its labels
    and annotations are. *)
Theorem SanitizeBuildRunSpec_output_labels_ignored
    (br : BuildRunSpec) (creds : option LocalObjectReference)
    (labels annotations : list (string * string)) :
  Spec_Output br = Some {| Image_Image := ""; Image_Credentials := creds;
                           Image_Labels := labels;
                           Image_Annotations := annotations |} ->
  creds = None \/ creds = Some {| LocalObjectReference_Name := "" |} ->
  exists br',
    SanitizeBuildRunSpec (Some br) = Ok (Some br') /\ Spec_Output br' = None.
Proof.
  intros Ho Hc. exists (sanitized br). split; [apply SanitizeBuildRunSpec_eq|].
  cbn. rewrite Ho. destruct Hc as [-> | ->]; reflexivity.
Qed.

Lemma SanitizeBuildRunSpec_output_labels_ignored_witness :
  exists br',
    SanitizeBuildRunSpec (Some labelledSpec) = Ok (Some br') /\ Spec_Output br' = None.
Proof.
  apply (SanitizeBuildRunSpec_output_labels_ignored labelledSpec
           (Some {| LocalObjectReference_Name := "" |})
           [("maintainer", "team")] []).
  - reflexivity.
  - right; reflexivity.
Defined.

End FlagsSpec.

(** ** The pod watcher *)

Module ReactorSpec.
Import GoRuntime Reactor.

Section Loop.

Context {Pod Err U : Type}.
Implicit Types (p : PodWatcher Pod Err U) (w : World Pod U)
  (e : Event Pod) (sel : list (Select Pod)) (pod : PodPtr Pod).

(** The [switch] of [onEvent] calls the hook [hookFor] names. *)
Lemma onEvent_pod p e pod w :
  Event_Object e = OPod pod ->
  onEvent p e w =
  if fst (checkSkip p pod w) then Continue (snd (checkSkip p pod w))
  else match hookFor p (Event_Type e) with
       | Some (h, f) => callHook (Some f) h pod (snd (checkSkip p pod w))
       | None => Continue (snd (checkSkip p pod w))
       end.
Proof.
  intros Ho. unfold onEvent, hookFor. rewrite Ho.
  destruct (checkSkip p pod w) as [skip w1]; cbn.
  destruct skip; [reflexivity|].
  destruct (String.eqb (Event_Type e) Added);
    [destruct (onPodAddedFn p); reflexivity|].
  destruct (String.eqb (Event_Type e) Modified);
    [destruct (onPodModifiedFn p); reflexivity|].
  destruct (String.eqb (Event_Type e) Deleted);
    [destruct (onPodDeletedFn p); reflexivity|].
  reflexivity.
Qed.

(** A run over [pre ++ rest] is the run over [pre], carried on over [rest]
    if [Start] has not returned by then. *)
Lemma Start_app p pre rest w :
  Start p (pre ++ rest) w =
  match Start p pre w with
  | Waiting w1 => Start p rest w1
  | Returned pod err w1 => Returned pod err w1
  end.
Proof.
  revert w. induction pre as [|s pre IH]; intros w; [reflexivity|].
  destruct s as [e| |]; cbn; try reflexivity.
  destruct (onEvent p e w); [apply IH | reflexivity].
Qed.

Lemma hookCalls_app (a b : list (Call Pod)) :
  hookCalls (a ++ b) = hookCalls a ++ hookCalls b.
Proof.
  induction a as [|[pod|h pod] a IH]; cbn; [reflexivity|exact IH|].
  rewrite IH. reflexivity.
Qed.

Lemma checkSkip_hookCalls p pod w :
  hookCalls (calls (snd (checkSkip p pod w))) = hookCalls (calls w).
Proof.
  unfold checkSkip. destruct (skipPodFn p) as [fn|]; [|reflexivity].
  destruct (fn pod (user w)) as [b u]; cbn.
  rewrite hookCalls_app. cbn. apply app_nil_r.
Qed.

(** One notification adds no hook call, or the one of its candidate. *)
Lemma onEvent_hookCalls p e w :
  exists l,
    hookCalls (calls (turnWorld (onEvent p e w))) = hookCalls (calls w) ++ l /\
    (l = [] \/ l = candidate p e).
Proof.
  destruct (Event_Object e) as [|pod|k] eqn:Ho.
  - exists []. unfold onEvent. rewrite Ho. cbn. rewrite app_nil_r. auto.
  - rewrite (onEvent_pod p e pod w Ho). unfold candidate. rewrite Ho.
    pose proof (checkSkip_hookCalls p pod w) as Hs.
    destruct (fst (checkSkip p pod w)).
    + exists []. cbn. rewrite app_nil_r. auto.
    + destruct (hookFor p (Event_Type e)) as [[h f]|].
      * exists [(h, pod)]. split; [|auto]. unfold callHook.
        destruct (f pod (user (snd (checkSkip p pod w)))) as [[err|] u]; cbn;
          rewrite hookCalls_app, Hs; reflexivity.
      * exists []. cbn. rewrite app_nil_r. auto.
  - exists []. unfold onEvent. rewrite Ho. cbn. rewrite app_nil_r. auto.
Qed.

(** The hook calls of a run follow the notifications: they are what is left
    of the candidates, one per notification at most, after some are taken
    out. *)
Lemma Start_hookCalls p sel w :
  exists l,
    hookCalls (calls (world (Start p sel w))) = hookCalls (calls w) ++ l /\
    sublist l (flat_map (candidate p) (notifications sel)).
Proof.
  revert w. induction sel as [|s sel IH]; intros w.
  - exists []. cbn. rewrite app_nil_r. split; [reflexivity|constructor].
  - destruct s as [e| |]; cbn.
    + destruct (onEvent_hookCalls p e w) as (l0 & Hl0 & Hcase).
      destruct (onEvent p e w) as [w'|pod err w'] eqn:Hon; cbn in *.
      * destruct (IH w') as (l & Hl & Hsub).
        exists (l0 ++ l). rewrite Hl, Hl0, app_assoc. split; [reflexivity|].
        destruct Hcase as [-> | ->]; cbn.
        -- apply sublist_inserts_l, Hsub.
        -- apply sublist_app; [reflexivity | exact Hsub].
      * exists l0. split; [exact Hl0|].
        destruct Hcase as [-> | ->]; [apply sublist_nil_l|].
        apply sublist_inserts_r. reflexivity.
    + exists []. rewrite app_nil_r. split; [reflexivity|apply sublist_nil_l].
    + exists []. rewrite app_nil_r. split; [reflexivity|apply sublist_nil_l].
Qed.

(** C2.  When the hook a notification is dispatched to returns an error,
    [Start] returns that notification's pod and that error, whatever the
    stream would have delivered next: nothing after the failing hook call
    is on record. *)
Theorem Start_hook_error_returns p pre e rest w w1 pod h f err u :
  Start p pre w = Waiting w1 ->
  Event_Object e = OPod pod ->
  fst (checkSkip p pod w1) = false ->
  hookFor p (Event_Type e) = Some (h, f) ->
  f pod (user (snd (checkSkip p pod w1))) = (Some err, u) ->
  Start p (pre ++ RecvEvent e :: rest) w =
  Returned pod (Some err) (called (HookCalled h pod) u (snd (checkSkip p pod w1))).
Proof.
  intros Hpre Ho Hskip Hh Hf.
  rewrite Start_app, Hpre. cbn.
  rewrite (onEvent_pod p e pod w1 Ho), Hskip, Hh.
  unfold callHook. rewrite Hf. reflexivity.
Qed.

(** C3 (as amended).  When the [select] of a running loop takes the stop
    case or the cancellation case, [Start] calls [Stop] on the watch once
    and returns a nil pod and a nil error, whatever notifications came
    before.  That the signal has fired makes the case ready, not taken. *)
Theorem Start_stop_or_cancel_returns_nil p pre s rest w w1 :
  Start p pre w = Waiting w1 ->
  s = CtxDone \/ s = RecvStop ->
  Start p (pre ++ s :: rest) w = Returned None None (stopWatcher w1) /\
  watcherStops (stopWatcher w1) = S (watcherStops w1).
Proof.
  intros Hpre Hs. rewrite Start_app, Hpre.
  destruct Hs as [-> | ->]; split; reflexivity.
Qed.

(** C4.  The hook calls of a run are taken in order from the notifications'
    candidates, of which each notification has one at most, the hook
    registered for its tag; a notification the skip predicate accepts adds
    no hook call; a notification for whose tag nothing is registered adds
    none either, and in both cases the loop goes on; a registered hook that
    returns no error is called once and the loop goes on. *)
Theorem Start_dispatch p :
  (forall sel w, exists l,
     hookCalls (calls (world (Start p sel w))) = hookCalls (calls w) ++ l /\
     sublist l (flat_map (candidate p) (notifications sel))) /\
  (forall e, length (candidate p e) <= 1) /\
  (forall e pod fn u rest w,
     Event_Object e = OPod pod ->
     skipPodFn p = Some fn ->
     fn pod (user w) = (true, u) ->
     Start p (RecvEvent e :: rest) w = Start p rest (called (SkipCalled pod) u w)) /\
  (forall e pod rest w,
     Event_Object e = OPod pod ->
     hookFor p (Event_Type e) = None ->
     Start p (RecvEvent e :: rest) w = Start p rest (snd (checkSkip p pod w))) /\
  (forall e pod h f u rest w,
     Event_Object e = OPod pod ->
     fst (checkSkip p pod w) = false ->
     hookFor p (Event_Type e) = Some (h, f) ->
     f pod (user (snd (checkSkip p pod w))) = (None, u) ->
     Start p (RecvEvent e :: rest) w =
     Start p rest (called (HookCalled h pod) u (snd (checkSkip p pod w)))).
Proof.
  split; [intros sel w; apply Start_hookCalls|].
  split.
  { intros e. unfold candidate.
    destruct (Event_Object e); cbn; try lia.
    destruct (hookFor p (Event_Type e)) as [[h f]|]; cbn; lia. }
  split.
  { intros e pod fn u rest w Ho Hfn Hskip. cbn.
    rewrite (onEvent_pod p e pod w Ho). unfold checkSkip.
    rewrite Hfn, Hskip. reflexivity. }
  split.
  { intros e pod rest w Ho Hh. cbn.
    rewrite (onEvent_pod p e pod w Ho), Hh.
    destruct (fst (checkSkip p pod w)); reflexivity. }
  intros e pod h f u rest w Ho Hskip Hh Hf. cbn.
  rewrite (onEvent_pod p e pod w Ho), Hskip, Hh.
  unfold callHook. rewrite Hf. reflexivity.
Qed.

(** C5.  A notification without an object, or with an object that is not a
    pod, changes nothing: no callback runs, [Start] does not return, and the
    loop takes the next case. *)
Theorem Start_drops_non_pod p e rest w :
  Event_Object e = ONil \/ (exists kind, Event_Object e = OOther kind) ->
  onEvent p e w = Continue w /\
  Start p (RecvEvent e :: rest) w = Start p rest w.
Proof.
  intros [Ho | [kind Ho]]; cbn; unfold onEvent; rewrite Ho; split; reflexivity.
Qed.

End Loop.

Lemma Start_hook_error_returns_witness :
  Start sampleWatcher
    ([RecvEvent (ev Added "build")] ++
       RecvEvent (ev Modified "build") :: [RecvEvent (ev Added "late")])
    freshWorld =
  Returned (Some "build") (Some "pod failed")
    {| user := 2;
       calls := [SkipCalled (Some "build"); HookCalled HAdded (Some "build");
                 SkipCalled (Some "build"); HookCalled HModified (Some "build")];
       watcherStops := 0 |}.
Proof.
  apply (Start_hook_error_returns sampleWatcher
           [RecvEvent (ev Added "build")] (ev Modified "build")
           [RecvEvent (ev Added "late")] freshWorld
           {| user := 1;
              calls := [SkipCalled (Some "build"); HookCalled HAdded (Some "build")];
              watcherStops := 0 |}
           (Some "build") HModified (fun _ u => (Some "pod failed", S u))
           "pod failed" 2); reflexivity.
Defined.

Lemma Start_stop_or_cancel_returns_nil_witness :
  Start sampleWatcher
    ([RecvEvent (ev Added "build")] ++ RecvStop :: [RecvEvent (ev Modified "build")])
    freshWorld =
  Returned None None
    {| user := 1;
       calls := [SkipCalled (Some "build"); HookCalled HAdded (Some "build")];
       watcherStops := 1 |}.
Proof.
  apply (Start_stop_or_cancel_returns_nil sampleWatcher
           [RecvEvent (ev Added "build")] RecvStop
           [RecvEvent (ev Modified "build")] freshWorld
           {| user := 1;
              calls := [SkipCalled (Some "build"); HookCalled HAdded (Some "build")];
              watcherStops := 0 |}).
  - reflexivity.
  - right; reflexivity.
Defined.

(** C3 as it is worded fails: [Stop] has closed the stop channel, so that
    the stop case is ready, and a notification is ready as well; a [select]
    runs any one of its ready cases, here the notification, whose hook
    returns an error: [Start] returns that pod and that error, and [Stop]
    is never called on the watch. *)
Lemma Start_after_stop_fired_returns_hook_error :
  exists p1 w',
    Stop sampleWatcher = Ok p1 /\
    recvReady (stopCh p1) = true /\
    Start p1 [RecvEvent (ev Modified "build"); RecvStop] freshWorld
      = Returned (Some "build") (Some "pod failed") w' /\
    watcherStops w' = 0.
Proof.
  eexists. eexists. split; [reflexivity|]. split; [reflexivity|].
  split; reflexivity.
Qed.

Lemma Start_dispatch_witness :
  Start sampleWatcher
    [RecvEvent (ev Added "init"); RecvEvent (ev Deleted "build");
     RecvEvent (ev Added "build")]
    freshWorld =
  Waiting
    {| user := 1;
       calls := [SkipCalled (Some "init"); SkipCalled (Some "build");
                 SkipCalled (Some "build"); HookCalled HAdded (Some "build")];
       watcherStops := 0 |}.
Proof.
  destruct (Start_dispatch sampleWatcher) as (_ & _ & Hskip & Hnone & Hcall).
  erewrite Hskip; [|reflexivity..].
  erewrite Hnone; [|reflexivity..].
  erewrite Hcall; [|reflexivity..].
  reflexivity.
Defined.

Lemma Start_drops_non_pod_witness :
  Start sampleWatcher
    [RecvEvent {| Event_Type := Added; Event_Object := OOther "ConfigMap" |};
     RecvEvent {| Event_Type := Error; Event_Object := ONil |}]
    freshWorld = Waiting freshWorld.
Proof.
  destruct (Start_drops_non_pod sampleWatcher
              {| Event_Type := Added; Event_Object := OOther "ConfigMap" |}
              [RecvEvent {| Event_Type := Error; Event_Object := ONil |}]
              freshWorld) as [_ ->]; [right; exists "ConfigMap"; reflexivity|].
  destruct (Start_drops_non_pod sampleWatcher
              {| Event_Type := Error; Event_Object := ONil |} [] freshWorld)
    as [_ ->]; [left; reflexivity|].
  reflexivity.
Defined.

End ReactorSpec.

(** ** The log tail *)

Module TailSpec.
Import GoRuntime Tail.

(** *** [strings.TrimPrefix] *)

Lemma append_nil (r : string) : "" +:+ r = r.
Proof. reflexivity. Qed.

Lemma append_cons (a : Ascii.ascii) (p r : string) :
  String a p +:+ r = String a (p +:+ r).
Proof. reflexivity. Qed.

Lemma string_length_app (p r : string) :
  String.length (p +:+ r) = String.length p + String.length r.
Proof.
  induction p as [|a p IH]; [reflexivity|].
  rewrite append_cons. cbn. f_equal; exact IH.
Qed.

Lemma substring_all (s : string) : String.substring 0 (String.length s) s = s.
Proof. induction s as [|a s IH]; cbn; [reflexivity | f_equal; exact IH]. Qed.

Lemma substring_take (p r : string) :
  String.substring 0 (String.length p) (p +:+ r) = p.
Proof.
  induction p as [|a p IH].
  - rewrite append_nil. destruct r; reflexivity.
  - rewrite append_cons. cbn. f_equal; exact IH.
Qed.

Lemma substring_drop (p r : string) :
  String.substring (String.length p)
    (String.length (p +:+ r) - String.length p) (p +:+ r) = r.
Proof.
  induction p as [|a p IH].
  - rewrite append_nil. cbn. rewrite Nat.sub_0_r. apply substring_all.
  - rewrite append_cons. cbn. exact IH.
Qed.

Lemma substring_split (n : nat) (s : string) :
  n <= String.length s ->
  s = String.substring 0 n s +:+ String.substring n (String.length s - n) s.
Proof.
  revert n. induction s as [|a s IH]; intros n Hn; cbn in Hn.
  - destruct n; [reflexivity | lia].
  - destruct n as [|n]; cbn.
    + rewrite append_nil. f_equal. symmetry. apply substring_all.
    + rewrite append_cons. f_equal. apply IH. lia.
Qed.

Lemma HasPrefix_app (p r : string) : HasPrefix (p +:+ r) p = true.
Proof.
  unfold HasPrefix. rewrite substring_take, String.eqb_refl, andb_true_r.
  apply Nat.leb_le. rewrite string_length_app. lia.
Qed.

Lemma HasPrefix_true (s p : string) :
  HasPrefix s p = true -> s = p +:+ TrimPrefix s p.
Proof.
  intros H. unfold TrimPrefix. rewrite H.
  unfold HasPrefix in H. apply andb_true_iff in H as [Hlen Heq].
  apply Nat.leb_le in Hlen. apply String.eqb_eq in Heq.
  rewrite <- Heq at 1. apply substring_split, Hlen.
Qed.

Lemma HasPrefix_iff (s p : string) :
  HasPrefix s p = true <-> exists r, s = p +:+ r.
Proof.
  split.
  - intros H. exists (TrimPrefix s p). apply HasPrefix_true, H.
  - intros [r ->]. apply HasPrefix_app.
Qed.

Lemma TrimPrefix_app (p r : string) : TrimPrefix (p +:+ r) p = r.
Proof. unfold TrimPrefix. rewrite HasPrefix_app. apply substring_drop. Qed.

Lemma TrimPrefix_other (s p : string) :
  ~ (exists r, s = p +:+ r) -> TrimPrefix s p = s.
Proof.
  intros H. unfold TrimPrefix.
  destruct (HasPrefix s p) eqn:Hp; [|reflexivity].
  exfalso. apply H, HasPrefix_iff, Hp.
Qed.

(** *** The reader keeps its name *)

Lemma insert_keeps (P : Attachment -> Prop) (l : list Attachment)
    (i j : nat) (a b b' : Attachment) :
  l !! i = Some a -> P a ->
  l !! j = Some b -> (i = j -> P b') ->
  exists a', <[j := b']> l !! i = Some a' /\ P a'.
Proof.
  intros Hi Pa Hj Pb. destruct (decide (j = i)) as [->|Hne].
  - exists b'. split; [|auto].
    apply list_lookup_insert_eq. eapply lookup_lt_Some, Hi.
  - exists a. rewrite list_lookup_insert_ne by exact Hne. auto.
Qed.

Lemma step_nameOk (c : string) (i : nat) (a : Attachment) (act : Action)
    (s s' : Sys) :
  atts s !! i = Some a -> nameOk c (reader a) ->
  step act s = Ok s' ->
  exists a', atts s' !! i = Some a' /\ nameOk c (reader a').
Proof.
  intros Hi Hok Hstep.
  destruct act as [ns podName container| | |j answer|j text|j|j]; cbn in Hstep.
  - injection Hstep as <-. cbn. exists a. split; [|exact Hok].
    apply lookup_app_l_Some, Hi.
  - unfold Stop, close in Hstep. destruct (chan_closed (stopCh s)); [discriminate|].
    injection Hstep as <-. cbn. eauto.
  - injection Hstep as <-. cbn. eauto.
  - injection Hstep as <-. unfold doOpen.
    destruct (atts s !! j) as [b|] eqn:Hj; [|eauto].
    destruct (reader b) as [ns podName container| |] eqn:Hr; [|eauto..].
    destruct answer as [err|]; cbn.
    + eapply (insert_keeps (fun x => nameOk c (reader x))); eauto. intros _. exact I.
    + eapply (insert_keeps (fun x => nameOk c (reader x))); eauto.
      intros ->. rewrite Hi in Hj. injection Hj as ->.
      rewrite Hr in Hok. cbn in *. rewrite Hok. reflexivity.
  - injection Hstep as <-. unfold doScan.
    destruct (atts s !! j) as [b|] eqn:Hj; [|eauto].
    destruct (reader b) as [| containerName |] eqn:Hr; [eauto| |eauto].
    destruct text as [line|]; cbn; [eauto|].
    eapply (insert_keeps (fun x => nameOk c (reader x))); eauto. intros _. exact I.
  - injection Hstep as <-. unfold doCloser.
    destruct (atts s !! j) as [b|] eqn:Hj; [|eauto].
    destruct (closer b); [eauto| |eauto].
    destruct (recvReady (stopCh s)); [|eauto]. cbn.
    eapply (insert_keeps (fun x => nameOk c (reader x))); eauto.
    intros ->. rewrite Hi in Hj. injection Hj as ->. exact Hok.
  - unfold doBridge in Hstep.
    destruct (atts s !! j) as [b|] eqn:Hj; [|injection Hstep as <-; eauto].
    destruct (bridge b); [injection Hstep as <-; eauto| |injection Hstep as <-; eauto].
    destruct (ctxDone s); [|injection Hstep as <-; eauto].
    unfold close in Hstep. destruct (chan_closed (stopCh s)); [discriminate|].
    injection Hstep as <-. cbn.
    eapply (insert_keeps (fun x => nameOk c (reader x))); eauto.
    intros ->. rewrite Hi in Hj. injection Hj as ->. exact Hok.
Qed.

Lemma run_nameOk (c : string) (i : nat) (sched : list Action) :
  forall (s s' : Sys) (a : Attachment),
    atts s !! i = Some a -> nameOk c (reader a) ->
    run sched s = Ok s' ->
    exists a', atts s' !! i = Some a' /\ nameOk c (reader a').
Proof.
  induction sched as [|act sched IH]; intros s s' a Hi Hok Hrun; cbn in Hrun.
  - injection Hrun as <-. eauto.
  - destruct (step act s) as [s1|msg] eqn:Hstep; [|discriminate]. cbn in Hrun.
    destruct (step_nameOk c i a act s s1 Hi Hok Hstep) as (a1 & Hi1 & Hok1).
    eapply IH; eauto.
Qed.

(** C6.  Once [Start] was called for container [c], whenever the reader it
    started is scanning and reads a line, it writes to the output sink, in
    one piece, ["[d] <line>"] and a newline, and nothing to the error sink;
    [d] is [c] without one leading "step-", and [c] itself if [c] does not
    start with "step-". *)
Theorem Tail_writes_formatted_line
    (s s1 : Sys) (ns podName c d text : string) (sched : list Action) :
  run (CallStart ns podName c :: sched) s = Ok s1 ->
  readerOf (length (atts s)) s1 = Some (Scanning d) ->
  d = TrimPrefix c "step-" /\
  (forall r, c = "step-" +:+ r -> d = r) /\
  (~ (exists r, c = "step-" +:+ r) -> d = c) /\
  exists s2,
    step (Scan (length (atts s)) (Some text)) s1 = Ok s2 /\
    stdout s2 = stdout s1 ++ ["[" +:+ d +:+ "] " +:+ text +:+ LF] /\
    stderr s2 = stderr s1.
Proof.
  intros Hrun Hr. cbn in Hrun.
  assert (Hd : d = TrimPrefix c "step-").
  { destruct (run_nameOk c (length (atts s)) sched (Start ns podName c s) s1
                {| reader := Opening ns podName c; closer := NotSpawned;
                   bridge := Pending; streamCloses := 0 |})
      as (a' & Ha' & Hok); [|reflexivity|exact Hrun|].
    - cbn. rewrite lookup_app_r by lia. rewrite Nat.sub_diag. reflexivity.
    - unfold readerOf in Hr. rewrite Ha' in Hr. cbn in Hr.
      injection Hr as Hr. rewrite Hr in Hok. exact Hok. }
  split; [exact Hd|].
  split; [intros r ->; rewrite Hd; apply TrimPrefix_app|].
  split; [intros Hno; rewrite Hd; apply TrimPrefix_other, Hno|].
  unfold readerOf in Hr. cbn. unfold doScan.
  destruct (atts s1 !! length (atts s)) as [a|]; [|discriminate].
  cbn in Hr. injection Hr as ->.
  eexists. split; [reflexivity|]. split; reflexivity.
Qed.

Lemma Tail_writes_formatted_line_witness :
  exists s2,
    step (Scan 0 (Some "compiling")) (doOpen 0 None (Start "ns" "pod" "step-build" NewTail))
      = Ok s2 /\
    stdout s2 = ["[build] compiling" +:+ LF].
Proof.
  destruct (Tail_writes_formatted_line NewTail
              (doOpen 0 None (Start "ns" "pod" "step-build" NewTail))
              "ns" "pod" "step-build" "build" "compiling" [Open 0 None]
              eq_refl eq_refl) as (_ & _ & _ & s2 & Hstep & Hout & _).
  exists s2. split; [exact Hstep | exact Hout].
Defined.

(** C7.  When the log request of a reader fails, the error and a newline go
    to the error sink and that reader returns without having spawned
    anything; the step is not a panic and [Start], having no result, has
    returned no error; the output sink, the stop channel, the context and
    every other attachment are as before, and a sibling that is scanning
    still delivers its next line. *)
Theorem Tail_open_failure_isolated
    (s : Sys) (i : nat) (a : Attachment) (ns podName c err : string) :
  atts s !! i = Some a ->
  reader a = Opening ns podName c ->
  exists s',
    step (Open i (Some err)) s = Ok s' /\
    stderr s' = stderr s ++ [err +:+ LF] /\
    stdout s' = stdout s /\
    atts s' !! i = Some (set_reader Finished a) /\
    (forall j, j <> i -> atts s' !! j = atts s !! j) /\
    stopCh s' = stopCh s /\
    ctxDone s' = ctxDone s /\
    (forall j d text, j <> i -> readerOf j s = Some (Scanning d) ->
       exists s2, step (Scan j (Some text)) s' = Ok s2 /\
                  stdout s2 = stdout s ++ [formatLine d text]).
Proof.
  intros Hi Hr. cbn. unfold doOpen. rewrite Hi, Hr.
  eexists. split; [reflexivity|]. cbn.
  split; [reflexivity|]. split; [reflexivity|].
  split; [apply list_lookup_insert_eq; eapply lookup_lt_Some, Hi|].
  split; [intros j Hj; apply list_lookup_insert_ne; congruence|].
  split; [reflexivity|]. split; [reflexivity|].
  intros j d text Hj Hrj. unfold readerOf in Hrj. unfold doScan. cbn.
  rewrite list_lookup_insert_ne by congruence.
  destruct (atts s !! j) as [b|]; [|discriminate].
  cbn in Hrj. injection Hrj as ->.
  eexists. split; reflexivity.
Qed.

Lemma Tail_open_failure_isolated_witness :
  exists s',
    step (Open 0 (Some "container not found")) twoAttached = Ok s' /\
    stderr s' = ["container not found" +:+ LF] /\
    readerOf 0 s' = Some Finished /\
    readerOf 1 s' = Some (Scanning "push") /\
    exists s2, step (Scan 1 (Some "pushed")) s' = Ok s2 /\
               stdout s2 = ["[push] pushed" +:+ LF].
Proof.
  destruct (Tail_open_failure_isolated twoAttached 0
              {| reader := Opening "ns" "pod" "step-build"; closer := NotSpawned;
                 bridge := Pending; streamCloses := 0 |}
              "ns" "pod" "step-build" "container not found" eq_refl eq_refl)
    as (s' & Hstep & Herr & _ & H0 & Hothers & _ & _ & Hsib).
  exists s'. split; [exact Hstep|]. split; [exact Herr|].
  unfold readerOf. rewrite H0, (Hothers 1) by discriminate.
  split; [reflexivity|]. split; [reflexivity|].
  apply (Hsib 1 "push" "pushed"); [discriminate | reflexivity].
Defined.

End TailSpec.

(** ** Stopping *)

Module StopSpec.
Import GoRuntime.

Lemma close_open (c : Chan) :
  chan_closed c = false ->
  close c = Ok {| chan_cap := chan_cap c; chan_closed := true |}.
Proof. intros H. unfold close. rewrite H. reflexivity. Qed.

Lemma close_closed (c : Chan) :
  chan_closed c = true -> close c = Panic "close of closed channel".
Proof. intros H. unfold close. rewrite H. reflexivity. Qed.

(** C1 (as amended).  [Stop], of a pod watcher or of a tail, closes the stop
    channel if it is open, and changes nothing else; on a stop channel that
    is closed already it panics.  So the first close is safe and there is no
    second. *)
Theorem Stop_closes_once :
  (forall (Pod Err U : Type) (p : Reactor.PodWatcher Pod Err U),
     (chan_closed (Reactor.stopCh p) = false ->
      exists p', Reactor.Stop p = Ok p' /\
        chan_closed (Reactor.stopCh p') = true /\
        Reactor.skipPodFn p' = Reactor.skipPodFn p /\
        Reactor.onPodAddedFn p' = Reactor.onPodAddedFn p /\
        Reactor.onPodModifiedFn p' = Reactor.onPodModifiedFn p /\
        Reactor.onPodDeletedFn p' = Reactor.onPodDeletedFn p) /\
     (chan_closed (Reactor.stopCh p) = true ->
      Reactor.Stop p = Panic "close of closed channel")) /\
  (forall s : Tail.Sys,
     (chan_closed (Tail.stopCh s) = false ->
      exists s', Tail.Stop s = Ok s' /\
        chan_closed (Tail.stopCh s') = true /\
        Tail.ctxDone s' = Tail.ctxDone s /\
        Tail.stdout s' = Tail.stdout s /\
        Tail.stderr s' = Tail.stderr s /\
        Tail.atts s' = Tail.atts s) /\
     (chan_closed (Tail.stopCh s) = true ->
      Tail.Stop s = Panic "close of closed channel")).
Proof.
  split.
  - intros Pod Err U p. split; intros H.
    + unfold Reactor.Stop. rewrite (close_open _ H). cbn.
      eexists. split; [reflexivity|]. cbn. auto 10.
    + unfold Reactor.Stop. rewrite (close_closed _ H). reflexivity.
  - intros s. split; intros H.
    + unfold Tail.Stop. rewrite (close_open _ H). cbn.
      eexists. split; [reflexivity|]. cbn. auto 10.
    + unfold Tail.Stop. rewrite (close_closed _ H). reflexivity.
Qed.

Lemma Stop_closes_once_witness :
  (exists p', Reactor.Stop Reactor.sampleWatcher = Ok p' /\
              chan_closed (Reactor.stopCh p') = true) /\
  (exists s', Tail.Stop Tail.NewTail = Ok s' /\
              chan_closed (Tail.stopCh s') = true).
Proof.
  destruct Stop_closes_once as [Hp Ht]. split.
  - destruct (Hp _ _ _ Reactor.sampleWatcher) as [Hopen _].
    destruct (Hopen eq_refl) as (p' & Hstop & Hc & _).
    exists p'. split; [exact Hstop | exact Hc].
  - destruct (Ht Tail.NewTail) as [Hopen _].
    destruct (Hopen eq_refl) as (s' & Hstop & Hc & _).
    exists s'. split; [exact Hstop | exact Hc].
Defined.

(** C1 as it is worded fails: the second [Stop] on a pod watcher panics, the
    second [Stop] on a tail panics, and so does the first [Stop] on a tail
    whose context was cancelled, once the goroutine that [Start] left
    waiting for the cancellation has closed the stop channel. *)
Lemma Stop_twice_panics :
  (exists p1, Reactor.Stop Reactor.sampleWatcher = Ok p1 /\
              Reactor.Stop p1 = Panic "close of closed channel") /\
  (exists s1, Tail.Stop Tail.NewTail = Ok s1 /\
              Tail.Stop s1 = Panic "close of closed channel") /\
  Tail.run [Tail.CallStart "ns" "pod" "step-build"; Tail.Cancel; Tail.Bridge 0;
            Tail.CallStop] Tail.NewTail
    = Panic "close of closed channel".
Proof.
  split; [eexists; split; reflexivity|].
  split; [eexists; split; reflexivity|].
  reflexivity.
Qed.

(** The same panic needs no [Stop] at all: every [Start] leaves a goroutine
    that closes the stop channel on cancellation, and the second of them to
    run finds it closed. *)
Lemma Tail_cancel_with_two_attachments_panics :
  Tail.run [Tail.CallStart "ns" "pod" "step-build";
            Tail.CallStart "ns" "pod" "step-push";
            Tail.Cancel; Tail.Bridge 0; Tail.Bridge 1] Tail.NewTail
    = Panic "close of closed channel".
Proof. reflexivity. Qed.

End StopSpec.

(** * Further properties *)

(** ** The sanitizer *)

Module FlagsMore.
Import GoRuntime Flags.

Lemma keptBuildRef_idem (p : option BuildRef) :
  keptBuildRef (keptBuildRef p) = keptBuildRef p.
Proof.
  destruct p as [[n [v|]]|]; cbn; try reflexivity.
  destruct (String.eqb n "" && String.eqb v "") eqn:E; cbn; [reflexivity|].
  rewrite E. reflexivity.
Qed.

Lemma keptServiceAccount_idem (p : option ServiceAccount) :
  keptServiceAccount (keptServiceAccount p) = keptServiceAccount p.
Proof.
  destruct p as [sa|]; [|reflexivity]. unfold keptServiceAccount.
  match goal with |- context [if ?c then None else Some sa] => destruct c eqn:E end;
    [reflexivity|]. rewrite E. reflexivity.
Qed.

Lemma keptCredentials_idem (o : Image) :
  keptCredentials (set_Credentials (keptCredentials o) o) = keptCredentials o.
Proof.
  unfold keptCredentials. cbn.
  destruct (Image_Credentials o) as [[cn]|]; [|reflexivity]. cbn.
  destruct (String.eqb cn "") eqn:E; [reflexivity|]. cbn. rewrite E. reflexivity.
Qed.

Lemma keptOutput_idem (p : option Image) :
  keptOutput (keptOutput p) = keptOutput p.
Proof.
  destruct p as [o|]; [|reflexivity]. unfold keptOutput.
  destruct (String.eqb (Image_Image o) "" && isNil (keptCredentials o)) eqn:E;
    [reflexivity|].
  cbv beta iota. rewrite keptCredentials_idem.
  change (Image_Image (set_Credentials (keptCredentials o) o)) with (Image_Image o).
  rewrite E. reflexivity.
Qed.

Lemma keptTimeout_idem (p : option Duration) :
  keptTimeout (keptTimeout p) = keptTimeout p.
Proof.
  destruct p as [[d]|]; [|reflexivity]. cbn.
  destruct (Z.eqb d 0) eqn:E; [reflexivity|]. cbn. rewrite E. reflexivity.
Qed.

Lemma keptEnv_idem (e : option (list EnvVar)) : keptEnv (keptEnv e) = keptEnv e.
Proof.
  unfold keptEnv. destruct (Nat.eqb (len e) 0) eqn:E; [reflexivity|].
  rewrite E. reflexivity.
Qed.

Lemma sanitized_idem (br : BuildRunSpec) : sanitized (sanitized br) = sanitized br.
Proof.
  unfold sanitized. cbn.
  rewrite keptBuildRef_idem, keptServiceAccount_idem, keptOutput_idem,
    keptTimeout_idem, keptEnv_idem. reflexivity.
Qed.

(** X1.  Whatever pointers of its argument are [nil] (the argument itself,
    a sub-structure, [APIVersion], [Name], [Generate], [Credentials]), the
    sanitizer dereferences none of them: it never panics. *)
Theorem SanitizeBuildRunSpec_never_panics (br : option BuildRunSpec) (msg : string) :
  SanitizeBuildRunSpec br <> Panic msg.
Proof.
  destruct br as [br|]; [|discriminate].
  rewrite FlagsSpec.SanitizeBuildRunSpec_eq. discriminate.
Qed.

(** X2.  Sanitizing a second time changes nothing. *)
Theorem SanitizeBuildRunSpec_idempotent (br : option BuildRunSpec) :
  (let! br1 := SanitizeBuildRunSpec br in SanitizeBuildRunSpec br1)
  = SanitizeBuildRunSpec br.
Proof.
  destruct br as [br|]; [|reflexivity].
  rewrite FlagsSpec.SanitizeBuildRunSpec_eq. cbn [bind].
  rewrite FlagsSpec.SanitizeBuildRunSpec_eq, sanitized_idem. reflexivity.
Qed.

(** X3.  What the sanitizer returns holds no sub-structure it would strip:
    no [BuildRef] with empty name and empty API version, no
    [ServiceAccount] without name and generate flag, no [Output] without
    image and credentials, no credentials without name, no zero [Timeout],
    and no [Env] that is empty without being [nil]. *)
Theorem SanitizeBuildRunSpec_result_clean (br : BuildRunSpec) :
  exists br', SanitizeBuildRunSpec (Some br) = Ok (Some br') /\ clean br'.
Proof.
  exists (sanitized br). split; [apply FlagsSpec.SanitizeBuildRunSpec_eq|].
  unfold clean, sanitized; cbn. split; [|split; [|split; [|split]]].
  - intros r Hr [Hn Hv]. destruct (Spec_BuildRef br) as [[n [v|]]|]; cbn in Hr.
    + destruct (String.eqb n "" && String.eqb v "") eqn:E; [discriminate|].
      injection Hr as <-. cbn in *. injection Hv as ->. subst n. discriminate.
    + injection Hr as <-. discriminate.
    + discriminate.
  - intros sa Hsa [Hn Hg]. destruct (Spec_ServiceAccount br) as [sa0|]; [|discriminate].
    cbn in Hsa.
    match type of Hsa with (if ?c then _ else _) = _ => destruct c eqn:E end;
      [discriminate|].
    injection Hsa as <-.
    destruct Hn as [Hn | Hn], Hg as [Hg | Hg]; rewrite Hn, Hg in E; discriminate.
  - intros o Ho. destruct (Spec_Output br) as [o0|]; [|discriminate]. cbn in Ho.
    destruct (String.eqb (Image_Image o0) "" && isNil (keptCredentials o0)) eqn:E;
      [discriminate|].
    injection Ho as <-.
    assert (Hkept : forall c, keptCredentials o0 = Some c -> ~ zeroCredentials c).
    { intros c Hk Hz. unfold keptCredentials in Hk.
      destruct (Image_Credentials o0) as [c0|]; [|discriminate].
      destruct (String.eqb (LocalObjectReference_Name c0) "") eqn:E0; [discriminate|].
      injection Hk as <-. unfold zeroCredentials in Hz. rewrite Hz in E0.
      discriminate. }
    split; [|exact Hkept].
    intros [Hi Hc]. unfold noCredentials in Hc. cbn in Hi, Hc.
    rewrite Hi in E. cbn in E.
    destruct (keptCredentials o0) as [c|]; [|discriminate].
    exact (Hkept c eq_refl Hc).
  - intros t Ht Hz. destruct (Spec_Timeout br) as [[d]|]; [|discriminate]. cbn in Ht.
    destruct (Z.eqb d 0) eqn:E; [discriminate|]. injection Ht as <-.
    unfold zeroTimeout in Hz. cbn in Hz. subst d. discriminate.
  - unfold keptEnv. destruct (Spec_Env br) as [[|x l]|]; cbn; discriminate.
Qed.

(** X4.  A [BuildRef] whose [APIVersion] pointer is [nil] stays, even with an
    empty name: unlike a [ServiceAccount], whose unset fields count as
    empty, the all-zero [BuildRef] is not stripped. *)
Theorem SanitizeBuildRunSpec_keeps_BuildRef_without_APIVersion
    (br : BuildRunSpec) (name : string) :
  Spec_BuildRef br = Some {| BuildRef_Name := name; BuildRef_APIVersion := None |} ->
  exists br',
    SanitizeBuildRunSpec (Some br) = Ok (Some br') /\
    Spec_BuildRef br' = Spec_BuildRef br.
Proof.
  intros H. exists (sanitized br). split; [apply FlagsSpec.SanitizeBuildRunSpec_eq|].
  cbn. rewrite H. reflexivity.
Qed.

Lemma SanitizeBuildRunSpec_keeps_BuildRef_without_APIVersion_witness :
  exists br',
    SanitizeBuildRunSpec
      (Some (set_BuildRef (Some {| BuildRef_Name := ""; BuildRef_APIVersion := None |})
               emptySpec)) = Ok (Some br') /\
    Spec_BuildRef br' = Some {| BuildRef_Name := ""; BuildRef_APIVersion := None |}.
Proof.
  apply (SanitizeBuildRunSpec_keeps_BuildRef_without_APIVersion
           (set_BuildRef (Some {| BuildRef_Name := ""; BuildRef_APIVersion := None |})
              emptySpec) "").
  reflexivity.
Defined.

(** X5.  The sanitizer only takes away: every field of the result is [nil]
    or what it was, and an [Output] that stays keeps its image, labels and
    annotations, its credentials being [nil] or what they were. *)
Theorem SanitizeBuildRunSpec_only_removes (br : BuildRunSpec) :
  exists br', SanitizeBuildRunSpec (Some br) = Ok (Some br') /\ onlyRemoves br br'.
Proof.
  exists (sanitized br). split; [apply FlagsSpec.SanitizeBuildRunSpec_eq|].
  unfold onlyRemoves, sanitized; cbn. repeat split.
  - destruct (Spec_BuildRef br) as [[n [v|]]|]; cbn; auto.
    destruct (String.eqb n "" && String.eqb v ""); auto.
  - destruct (Spec_ServiceAccount br) as [sa|]; cbn; auto.
    match goal with |- context [if ?c then None else Some sa] => destruct c end; auto.
  - destruct (Spec_Timeout br) as [[d]|]; cbn; auto. destruct (Z.eqb d 0); auto.
  - unfold keptEnv. destruct (Nat.eqb (len (Spec_Env br)) 0); auto.
  - destruct (Spec_Output br) as [o|]; cbn; auto.
    destruct (String.eqb (Image_Image o) "" && isNil (keptCredentials o)); auto.
    right. exists o, (set_Credentials (keptCredentials o) o). cbn.
    repeat split. unfold keptCredentials.
    destruct (Image_Credentials o) as [c|]; auto.
    destruct (String.eqb (LocalObjectReference_Name c) ""); auto.
Qed.

End FlagsMore.

(** ** The pod watcher *)

Module ReactorMore.
Import GoRuntime Reactor.

Section Loop.

Context {Pod Err U : Type}.
Implicit Types (p : PodWatcher Pod Err U) (w : World Pod U)
  (e : Event Pod) (sel : list (Select Pod)) (pod : PodPtr Pod).

(** A turn of the loop returns only out of a hook that gave an error. *)
Lemma onEvent_Return p e w pod err w' :
  onEvent p e w = Return pod err w' ->
  Event_Object e = OPod pod /\
  fst (checkSkip p pod w) = false /\
  exists h f err0 u,
    hookFor p (Event_Type e) = Some (h, f) /\
    f pod (user (snd (checkSkip p pod w))) = (Some err0, u) /\
    err = Some err0 /\
    w' = called (HookCalled h pod) u (snd (checkSkip p pod w)).
Proof.
  intros H. destruct (Event_Object e) as [|pod0|kind] eqn:Ho;
    [unfold onEvent in H; rewrite Ho in H; discriminate| |
     unfold onEvent in H; rewrite Ho in H; discriminate].
  rewrite (ReactorSpec.onEvent_pod p e pod0 w Ho) in H.
  destruct (fst (checkSkip p pod0 w)) eqn:Hs; [discriminate|].
  destruct (hookFor p (Event_Type e)) as [[h f]|] eqn:Hh; [|discriminate].
  unfold callHook in H.
  destruct (f pod0 (user (snd (checkSkip p pod0 w)))) as [[err0|] u] eqn:Hf;
    [|discriminate].
  injection H as <- <- <-.
  split; [reflexivity|]. split; [exact Hs|].
  exists h, f, err0, u. auto.
Qed.

Lemma callHook_watcherStops (fn : option (OnPodEventFn Pod Err U)) h pod w :
  watcherStops (turnWorld (callHook fn h pod w)) = watcherStops w.
Proof.
  unfold callHook. destruct fn as [f|]; [|reflexivity].
  destruct (f pod (user w)) as [[err|] u]; reflexivity.
Qed.

Lemma onEvent_watcherStops p e w :
  watcherStops (turnWorld (onEvent p e w)) = watcherStops w.
Proof.
  unfold onEvent. destruct (Event_Object e) as [|pod|kind]; try reflexivity.
  assert (Hs : watcherStops (snd (checkSkip p pod w)) = watcherStops w).
  { unfold checkSkip. destruct (skipPodFn p) as [fn|]; [|reflexivity].
    destruct (fn pod (user w)); reflexivity. }
  destruct (checkSkip p pod w) as [skip w1]; cbn in Hs.
  destruct skip; [exact Hs|].
  repeat match goal with
         | |- context [if ?c then _ else _] => destruct c
         end; try exact Hs; rewrite callHook_watcherStops; exact Hs.
Qed.

(** X6.  [Start] calls [Stop] on the watch once when it returns through the
    stop or the cancellation case, and not at all otherwise: when it
    returns the error of a hook, the watch is left running. *)
Theorem Start_stops_watch_only_without_error p sel w :
  match Start p sel w with
  | Returned _ None w' => watcherStops w' = S (watcherStops w)
  | Returned _ (Some _) w' => watcherStops w' = watcherStops w
  | Waiting w' => watcherStops w' = watcherStops w
  end.
Proof.
  revert w. induction sel as [|s sel IH]; intros w; [reflexivity|].
  destruct s as [e| |]; cbn; try reflexivity.
  pose proof (onEvent_watcherStops p e w) as Hw.
  destruct (onEvent p e w) as [w1|pod err w1] eqn:Hon; cbn in Hw.
  - specialize (IH w1). rewrite Hw in IH. exact IH.
  - destruct (onEvent_Return p e w pod err w1 Hon) as (_ & _ & h & f & err0 & u & _ & _ & -> & _).
    exact Hw.
Qed.

(** X7.  An error [Start] returns is the error some hook returned: there is
    a notification, reached with the loop still running and not skipped,
    whose pod is the pod returned and whose registered hook gave that
    error. *)
Theorem Start_error_comes_from_hook p sel w pod err w' :
  Start p sel w = Returned pod (Some err) w' ->
  exists pre e rest w1 h f u,
    sel = pre ++ RecvEvent e :: rest /\
    Start p pre w = Waiting w1 /\
    Event_Object e = OPod pod /\
    fst (checkSkip p pod w1) = false /\
    hookFor p (Event_Type e) = Some (h, f) /\
    f pod (user (snd (checkSkip p pod w1))) = (Some err, u) /\
    w' = called (HookCalled h pod) u (snd (checkSkip p pod w1)).
Proof.
  revert w. induction sel as [|s sel IH]; intros w H; [discriminate|].
  destruct s as [e| |]; cbn in H; try discriminate.
  destruct (onEvent p e w) as [w1|pod1 err1 w1] eqn:Hon.
  - destruct (IH w1 H) as (pre & e' & rest & w2 & h & f & u & -> & Hpre & Hrest).
    exists (RecvEvent e :: pre), e', rest, w2, h, f, u.
    split; [reflexivity|]. split; [cbn; rewrite Hon; exact Hpre | exact Hrest].
  - injection H as -> -> ->.
    destruct (onEvent_Return p e w pod (Some err) w' Hon)
      as (Ho & Hs & h & f & err0 & u & Hh & Hf & [= <-] & Hw).
    exists [], e, sel, w, h, f, u. cbn. auto 10.
Qed.

(** X8.  [Start] returns no error only with no pod, and only because a
    [select] of the running loop took the stop or the cancellation case. *)
Theorem Start_nil_error_comes_from_stop p sel w pod w' :
  Start p sel w = Returned pod None w' ->
  pod = None /\
  exists pre s rest w1,
    sel = pre ++ s :: rest /\
    (s = CtxDone \/ s = RecvStop) /\
    Start p pre w = Waiting w1 /\
    w' = stopWatcher w1.
Proof.
  revert w. induction sel as [|s sel IH]; intros w H; [discriminate|].
  destruct s as [e| |]; cbn in H.
  - destruct (onEvent p e w) as [w1|pod1 err1 w1] eqn:Hon.
    + destruct (IH w1 H) as (Hp & pre & s & rest & w2 & -> & Hs & Hpre & Hw).
      split; [exact Hp|].
      exists (RecvEvent e :: pre), s, rest, w2.
      split; [reflexivity|]. split; [exact Hs|].
      split; [cbn; rewrite Hon; exact Hpre | exact Hw].
    + injection H as -> -> ->.
      destruct (onEvent_Return p e w pod None w' Hon)
        as (_ & _ & h & f & err0 & u & _ & _ & Herr & _).
      discriminate Herr.
  - injection H as <- <-. split; [reflexivity|].
    exists [], CtxDone, sel, w. cbn. auto.
  - injection H as <- <-. split; [reflexivity|].
    exists [], RecvStop, sel, w. cbn. auto.
Qed.

(** X9.  A watcher as [NewPodWatcher] returns it, with nothing registered,
    takes any number of notifications without calling anything and without
    returning. *)
Theorem NewPodWatcher_Start_idle p (evs : list (Event Pod)) w :
  NewPodWatcher None = inr p ->
  Start p (RecvEvent <$> evs) w = Waiting w.
Proof.
  intros [= <-]. induction evs as [|e evs IH]; [reflexivity|]. cbn.
  replace (onEvent _ e w) with (@Continue Pod Err U w); [exact IH|].
  unfold onEvent. destruct (Event_Object e) as [|pod|kind]; try reflexivity.
  cbn. repeat match goal with
              | |- context [if ?c then _ else _] => destruct c
              end; reflexivity.
Qed.

(** X10.  Once the result channel of the watch is closed, every receive
    yields the zero [Event]; [Start] drops each one and goes round again, so
    it does not notice that the watch has ended. *)
Theorem Start_spins_on_closed_result_channel p (n : nat) sel w :
  Start p (replicate n (RecvEvent zeroEvent) ++ sel) w = Start p sel w.
Proof. induction n as [|n IH]; [reflexivity | exact IH]. Qed.

(** X11.  [Start] keeps no state of its own between turns: over a longer
    delivery it does what it does over the first part and, if it has not
    returned by then, carries on over the rest from the world reached. *)
Theorem Start_resumes p pre rest w :
  Start p (pre ++ rest) w =
  match Start p pre w with
  | Waiting w1 => Start p rest w1
  | Returned pod err w1 => Returned pod err w1
  end.
Proof. apply ReactorSpec.Start_app. Qed.

(** X12.  Each of the three setters changes what is done for its own tag
    and for no other: after it, a pod notification of that tag that is not
    skipped goes to the function given, and a notification of another tag
    goes where it went before. *)
Theorem With_setters_change_own_tag p (fn : option (OnPodEventFn Pod Err U)) e pod w :
  Event_Object e = OPod pod ->
  fst (checkSkip p pod w) = false ->
  (Event_Type e = Added ->
     onEvent (WithOnPodAddedFn fn p) e w = callHook fn HAdded pod (snd (checkSkip p pod w))) /\
  (Event_Type e <> Added ->
     onEvent (WithOnPodAddedFn fn p) e w = onEvent p e w) /\
  (Event_Type e = Modified ->
     onEvent (WithOnPodModifiedFn fn p) e w = callHook fn HModified pod (snd (checkSkip p pod w))) /\
  (Event_Type e <> Modified ->
     onEvent (WithOnPodModifiedFn fn p) e w = onEvent p e w) /\
  (Event_Type e = Deleted ->
     onEvent (WithOnPodDeletedFn fn p) e w = callHook fn HDeleted pod (snd (checkSkip p pod w))) /\
  (Event_Type e <> Deleted ->
     onEvent (WithOnPodDeletedFn fn p) e w = onEvent p e w).
Proof.
  intros Ho Hs.
  assert (Hsk : forall q : PodWatcher Pod Err U,
             skipPodFn q = skipPodFn p -> checkSkip q pod w = checkSkip p pod w).
  { intros q Hq. unfold checkSkip. rewrite Hq. reflexivity. }
  repeat split.
  - intros Ht. unfold onEvent. rewrite Ho, Hsk by reflexivity.
    destruct (checkSkip p pod w) as [skip w1]; cbn in Hs |- *. subst skip.
    rewrite Ht. reflexivity.
  - intros Ht. apply String.eqb_neq in Ht. unfold onEvent.
    rewrite Ho, Hsk by reflexivity. rewrite Ht. reflexivity.
  - intros Ht. unfold onEvent. rewrite Ho, Hsk by reflexivity.
    destruct (checkSkip p pod w) as [skip w1]; cbn in Hs |- *. subst skip.
    rewrite Ht. reflexivity.
  - intros Ht. apply String.eqb_neq in Ht. unfold onEvent.
    rewrite Ho, Hsk by reflexivity. rewrite Ht. reflexivity.
  - intros Ht. unfold onEvent. rewrite Ho, Hsk by reflexivity.
    destruct (checkSkip p pod w) as [skip w1]; cbn in Hs |- *. subst skip.
    rewrite Ht. reflexivity.
  - intros Ht. apply String.eqb_neq in Ht. unfold onEvent.
    rewrite Ho, Hsk by reflexivity. rewrite Ht. reflexivity.
Qed.

End Loop.

Lemma Start_error_comes_from_hook_witness :
  exists pre e rest,
    [RecvEvent (ev Added "build"); RecvEvent (ev Modified "build");
     RecvEvent (ev Added "late")] = pre ++ RecvEvent e :: rest /\
    Event_Object e = OPod (Some "build").
Proof.
  destruct (Start_error_comes_from_hook sampleWatcher
              [RecvEvent (ev Added "build"); RecvEvent (ev Modified "build");
               RecvEvent (ev Added "late")]
              freshWorld (Some "build") "pod failed" _ eq_refl)
    as (pre & e & rest & w1 & h & f & u & Hsel & _ & Ho & _).
  exists pre, e, rest. split; [exact Hsel | exact Ho].
Defined.

Lemma Start_nil_error_comes_from_stop_witness :
  exists pre s rest,
    [RecvEvent (ev Added "build"); CtxDone; RecvEvent (ev Added "late")]
      = pre ++ s :: rest /\
    (s = CtxDone \/ s = RecvStop).
Proof.
  destruct (Start_nil_error_comes_from_stop sampleWatcher
              [RecvEvent (ev Added "build"); CtxDone; RecvEvent (ev Added "late")]
              freshWorld None _ eq_refl)
    as (_ & pre & s & rest & w1 & Hsel & Hs & _).
  exists pre, s, rest. split; [exact Hsel | exact Hs].
Defined.

Lemma NewPodWatcher_Start_idle_witness :
  Start {| stopCh := make 0; skipPodFn := None; onPodAddedFn := None;
           onPodModifiedFn := None; onPodDeletedFn := None |}
    (RecvEvent <$> [ev Added "build"; ev Modified "build"; ev Deleted "build"])
    freshWorld
  = @Waiting string string nat freshWorld.
Proof.
  apply (NewPodWatcher_Start_idle
           {| stopCh := make 0; skipPodFn := None; onPodAddedFn := None;
              onPodModifiedFn := None; onPodDeletedFn := None |}
           [ev Added "build"; ev Modified "build"; ev Deleted "build"] freshWorld).
  reflexivity.
Defined.

Lemma With_setters_change_own_tag_witness :
  onEvent (WithOnPodDeletedFn (Some (fun _ u => (Some "gone", S u))) sampleWatcher)
    (ev Deleted "build") freshWorld
  = Return (Some "build") (Some "gone")
      {| user := 1;
         calls := [SkipCalled (Some "build"); HookCalled HDeleted (Some "build")];
         watcherStops := 0 |} /\
  onEvent (WithOnPodDeletedFn (Some (fun _ u => (Some "gone", S u))) sampleWatcher)
    (ev Added "build") freshWorld
  = onEvent sampleWatcher (ev Added "build") freshWorld.
Proof.
  destruct (With_setters_change_own_tag sampleWatcher
              (Some (fun _ u => (Some "gone", S u)))
              (ev Deleted "build") (Some "build") freshWorld eq_refl eq_refl)
    as (_ & _ & _ & _ & Hdel & _).
  destruct (With_setters_change_own_tag sampleWatcher
              (Some (fun _ u => (Some "gone", S u)))
              (ev Added "build") (Some "build") freshWorld eq_refl eq_refl)
    as (_ & _ & _ & _ & _ & Hother).
  split; [rewrite Hdel by reflexivity; reflexivity|].
  apply Hother. discriminate.
Defined.

End ReactorMore.

(** ** The log tail *)

Module TailMore.
Import GoRuntime Tail.

Lemma Stop_Ok (s s' : Sys) :
  Stop s = Ok s' ->
  chan_closed (stopCh s) = false /\
  s' = set_stopCh {| chan_cap := chan_cap (stopCh s); chan_closed := true |} s.
Proof.
  unfold Stop, close. destruct (chan_closed (stopCh s)); [discriminate|].
  intros [= <-]. auto.
Qed.

Lemma doBridge_Ok (i : nat) (s s' : Sys) :
  doBridge i s = Ok s' ->
  s' = s \/
  exists a, atts s !! i = Some a /\ bridge a = Pending /\ ctxDone s = true /\
    chan_closed (stopCh s) = false /\
    s' = set_stopCh {| chan_cap := chan_cap (stopCh s); chan_closed := true |}
           (set_atts (<[i := set_bridge Fired a]> (atts s)) s).
Proof.
  unfold doBridge. destruct (atts s !! i) as [a|] eqn:Hi; [|intros [= <-]; auto].
  destruct (bridge a) eqn:Hb; try (intros [= <-]; auto).
  destruct (ctxDone s) eqn:Hc; [|intros [= <-]; auto].
  unfold close. destruct (chan_closed (stopCh s)) eqn:Hcl; [discriminate|].
  intros [= <-]. right. exists a. auto 10.
Qed.

(** What one step can add to the two sinks. *)
Lemma step_outputs (act : Action) (s s' : Sys) :
  step act s = Ok s' ->
  (stdout s' = stdout s \/
   exists d text, stdout s' = stdout s ++ [formatLine d text]) /\
  (stderr s' = stderr s \/
   exists err, stderr s' = stderr s ++ [formatErr err]).
Proof.
  assert (Hsame : (stdout s = stdout s \/
                   exists d text, stdout s = stdout s ++ [formatLine d text]) /\
                  (stderr s = stderr s \/
                   exists err, stderr s = stderr s ++ [formatErr err])) by auto.
  destruct act as [ns podName container| | |j answer|j text|j|j]; cbn.
  - intros [= <-]. exact Hsame.
  - intros H. apply Stop_Ok in H as [_ ->]. exact Hsame.
  - intros [= <-]. exact Hsame.
  - intros [= <-]. unfold doOpen.
    destruct (atts s !! j) as [b|]; [|exact Hsame].
    destruct (reader b); [|exact Hsame..].
    destruct answer as [err|]; cbn; [|exact Hsame].
    split; [left; reflexivity | right; exists err; reflexivity].
  - intros [= <-]. unfold doScan.
    destruct (atts s !! j) as [b|]; [|exact Hsame].
    destruct (reader b) as [| d |]; [exact Hsame| |exact Hsame].
    destruct text as [line|]; cbn; [|exact Hsame].
    split; [right; exists d, line; reflexivity | left; reflexivity].
  - intros [= <-]. unfold doCloser.
    destruct (atts s !! j) as [b|]; [|exact Hsame].
    destruct (closer b); [exact Hsame| |exact Hsame].
    destruct (recvReady (stopCh s)); exact Hsame.
  - intros H. apply doBridge_Ok in H as [-> | (a & _ & _ & _ & _ & ->)]; exact Hsame.
Qed.

(** X13.  The two sinks only grow: over any run the output sink receives
    nothing but whole lines of the form ["[name] text"] with a newline, each
    in a write of its own, and the error sink nothing but error messages
    with a newline; what was written stays as it was. *)
Theorem run_sinks_append_only (sched : list Action) (s s' : Sys) :
  run sched s = Ok s' ->
  exists out errs,
    stdout s' = stdout s ++ out /\
    Forall (fun chunk => exists d text, chunk = formatLine d text) out /\
    stderr s' = stderr s ++ errs /\
    Forall (fun chunk => exists err, chunk = formatErr err) errs.
Proof.
  revert s. induction sched as [|act sched IH]; intros s H; cbn in H.
  - injection H as <-. exists [], []. rewrite !app_nil_r. auto.
  - destruct (step act s) as [s1|msg] eqn:Hstep; [|discriminate]. cbn in H.
    destruct (IH s1 H) as (out & errs & Hout & Fout & Herr & Ferr).
    destruct (step_outputs act s s1 Hstep) as [Ho He].
    assert (exists out', stdout s' = stdout s ++ out' /\
              Forall (fun chunk => exists d text, chunk = formatLine d text) out')
      as (out' & Hout' & Fout').
    { destruct Ho as [Ho | (d & text & Ho)]; rewrite Ho in Hout.
      - exists out. auto.
      - exists (formatLine d text :: out). rewrite <- app_assoc in Hout.
        split; [exact Hout|]. constructor; eauto. }
    assert (exists errs', stderr s' = stderr s ++ errs' /\
              Forall (fun chunk => exists err, chunk = formatErr err) errs')
      as (errs' & Herr' & Ferr').
    { destruct He as [He | (err & He)]; rewrite He in Herr.
      - exists errs. auto.
      - exists (formatErr err :: errs). rewrite <- app_assoc in Herr.
        split; [exact Herr|]. constructor; eauto. }
    exists out', errs'. auto.
Qed.

Lemma Tail_run_sinks_witness :
  exists out errs,
    stdout (doScan 1 (Some "pushed") twoAttached) = stdout NewTail ++ out /\
    stderr (doScan 1 (Some "pushed") twoAttached) = stderr NewTail ++ errs.
Proof.
  destruct (run_sinks_append_only
              [CallStart "ns" "pod" "step-build"; CallStart "ns" "pod" "step-push";
               Open 1 None; Scan 1 (Some "pushed")]
              NewTail (doScan 1 (Some "pushed") twoAttached) eq_refl)
    as (out & errs & Hout & _ & Herr & _).
  exists out, errs. split; [exact Hout | exact Herr].
Defined.

Lemma set_atts_set_atts (l l' : list Attachment) (s : Sys) :
  set_atts l (set_atts l' s) = set_atts l s.
Proof. reflexivity. Qed.

Lemma run_closers (todo : list Attachment) :
  forall (done : list Attachment) (s : Sys),
    chan_closed (stopCh s) = true ->
    run (Closer <$> seq (length done) (length todo)) (set_atts (done ++ todo) s)
    = Ok (set_atts (done ++ (closeIfPending <$> todo)) s).
Proof.
  induction todo as [|a todo IH]; intros done s Hc; [reflexivity|].
  cbn [length seq fmap list_fmap run step bind].
  assert (Hstep : doCloser (length done) (set_atts (done ++ a :: todo) s)
                  = set_atts (done ++ closeIfPending a :: todo) s).
  { unfold doCloser. cbn [atts set_atts stopCh].
    rewrite list_lookup_middle by reflexivity.
    unfold closeIfPending, recvReady. rewrite Hc.
    destruct (closer a) eqn:Hcl; try reflexivity.
    rewrite insert_app_r_alt by lia. rewrite Nat.sub_diag. reflexivity. }
  rewrite Hstep.
  replace (done ++ closeIfPending a :: todo)
    with ((done ++ [closeIfPending a]) ++ todo) by (rewrite <- app_assoc; reflexivity).
  replace (S (length done)) with (length (done ++ [closeIfPending a]))
    by (rewrite length_app; cbn; lia).
  rewrite IH by exact Hc.
  rewrite <- app_assoc. reflexivity.
Qed.

(** X14.  Once the stop channel is closed, by [Stop] or after a
    cancellation, the goroutines that wait on it close every stream that
    was opened, each once, when they get to run; an attachment whose stream
    is not open (not opened yet, or failed to open) is left as it is, and
    so are the sinks. *)
Theorem closers_close_every_open_stream (s : Sys) :
  chan_closed (stopCh s) = true ->
  run (Closer <$> seq 0 (length (atts s))) s
  = Ok (set_atts (closeIfPending <$> atts s) s).
Proof.
  intros Hc. pose proof (run_closers (atts s) [] s Hc) as H. cbn in H.
  replace (set_atts (atts s) s) with s in H by (destruct s; reflexivity).
  exact H.
Qed.

Lemma closers_close_every_open_stream_witness :
  exists s1 s2,
    Stop twoAttached = Ok s1 /\
    run [Closer 0; Closer 1] s1 = Ok s2 /\
    (streamCloses <$> atts s2) = [0; 1] /\
    (closer <$> atts s2) = [NotSpawned; Fired].
Proof.
  exists (set_stopCh {| chan_cap := 1; chan_closed := true |} twoAttached).
  eexists. split; [reflexivity|].
  split; [apply (closers_close_every_open_stream
                   (set_stopCh {| chan_cap := 1; chan_closed := true |} twoAttached));
          reflexivity|].
  split; reflexivity.
Defined.

(** X15.  A cancellation does what [Stop] does: with the stop channel open
    and the goroutine of one [Start] waiting for the context, the
    cancellation followed by that goroutine leaves the stop channel closed
    as [Stop] would have left it, and the sinks and the readers as they
    were. *)
Theorem cancel_closes_stop_channel (s : Sys) (i : nat) (a : Attachment) :
  chan_closed (stopCh s) = false ->
  atts s !! i = Some a ->
  bridge a = Pending ->
  exists s1 s2,
    run [Cancel; Bridge i] s = Ok s1 /\
    Stop s = Ok s2 /\
    stopCh s1 = stopCh s2 /\
    chan_closed (stopCh s1) = true /\
    stdout s1 = stdout s /\ stderr s1 = stderr s /\
    forall j, readerOf j s1 = readerOf j s.
Proof.
  intros Hc Hi Hb. cbn. unfold doBridge, Stop, close. cbn. rewrite Hi, Hb, Hc. cbn.
  eexists. eexists. split; [reflexivity|]. split; [reflexivity|]. cbn.
  repeat split. intros j. unfold readerOf. cbn.
  destruct (decide (i = j)) as [<-|Hne].
  - rewrite list_lookup_insert_eq by (eapply lookup_lt_Some, Hi).
    rewrite Hi. reflexivity.
  - rewrite list_lookup_insert_ne by exact Hne. reflexivity.
Qed.

Lemma cancel_closes_stop_channel_witness :
  exists s1, run [Cancel; Bridge 0] twoAttached = Ok s1 /\
             chan_closed (stopCh s1) = true.
Proof.
  destruct (cancel_closes_stop_channel twoAttached 0
              {| reader := Opening "ns" "pod" "step-build"; closer := NotSpawned;
                 bridge := Pending; streamCloses := 0 |}
              eq_refl eq_refl eq_refl)
    as (s1 & s2 & Hrun & _ & _ & Hcl & _).
  exists s1. split; [exact Hrun | exact Hcl].
Defined.

Lemma step_nonclosing (act : Action) (s : Sys) :
  closes act = false ->
  exists s', step act s = Ok s' /\ stopCh s' = stopCh s.
Proof.
  destruct act as [ns podName container| | |j answer|j text|j|j]; cbn;
    try discriminate; intros _; eexists; (split; [reflexivity|]).
  - reflexivity.
  - reflexivity.
  - unfold doOpen. destruct (atts s !! j) as [b|]; [|reflexivity].
    destruct (reader b); [|reflexivity..]. destruct answer; reflexivity.
  - unfold doScan. destruct (atts s !! j) as [b|]; [|reflexivity].
    destruct (reader b); [reflexivity| |reflexivity]. destruct text; reflexivity.
  - unfold doCloser. destruct (atts s !! j) as [b|]; [|reflexivity].
    destruct (closer b); [reflexivity| |reflexivity].
    destruct (recvReady (stopCh s)); reflexivity.
Qed.

Lemma run_nonclosing (sched : list Action) :
  forall s, closings sched = 0 ->
    exists s', run sched s = Ok s' /\ stopCh s' = stopCh s.
Proof.
  induction sched as [|act sched IH]; intros s H; cbn in H.
  - exists s. split; reflexivity.
  - destruct (closes act) eqn:Hact; [discriminate|]. cbn in H.
    destruct (step_nonclosing act s Hact) as (s1 & Hstep & Hch).
    destruct (IH s1 H) as (s' & Hrun & Hch').
    exists s'. cbn. rewrite Hstep. cbn. split; [exact Hrun | congruence].
Qed.

(** X16.  The readers, the goroutines that close the streams, new [Start]
    calls and the cancellation itself never touch the stop channel and never
    panic, whatever the log requests and the streams answer: a run without
    [Stop] and without the goroutines that forward the cancellation goes
    through and leaves the stop channel as it was. *)
Theorem run_without_close_never_panics (sched : list Action) (s : Sys) :
  closings sched = 0 ->
  exists s', run sched s = Ok s' /\ stopCh s' = stopCh s.
Proof. apply run_nonclosing. Qed.

Lemma run_without_close_never_panics_witness :
  exists s',
    run [CallStart "ns" "pod" "step-build"; Open 0 None; Scan 0 (Some "compiling");
         Cancel; Closer 0; Scan 0 None] NewTail = Ok s' /\
    stopCh s' = stopCh NewTail.
Proof.
  apply (run_without_close_never_panics
           [CallStart "ns" "pod" "step-build"; Open 0 None; Scan 0 (Some "compiling");
            Cancel; Closer 0; Scan 0 None] NewTail).
  reflexivity.
Defined.

(** X17.  With the stop channel open, a run in which [close(t.stopCh)] is
    reached once at most, by one [Stop] or by the goroutine of one [Start]
    after a cancellation, does not panic, whatever else happens in it. *)
Theorem run_with_one_close_never_panics (sched : list Action) (s : Sys) :
  chan_closed (stopCh s) = false ->
  closings sched <= 1 ->
  exists s', run sched s = Ok s'.
Proof.
  revert s. induction sched as [|act sched IH]; intros s Hc Hn; cbn in Hn.
  - exists s. reflexivity.
  - destruct (closes act) eqn:Hact; cbn in Hn.
    + assert (Hrest : closings sched = 0) by lia.
      assert (exists s1, step act s = Ok s1) as [s1 Hstep].
      { destruct act as [ns podName container| | |j answer|j text|j|j];
          try discriminate; cbn.
        - unfold Stop, close. rewrite Hc. eexists; reflexivity.
        - unfold doBridge. destruct (atts s !! j) as [b|]; [|eexists; reflexivity].
          destruct (bridge b); try (eexists; reflexivity).
          destruct (ctxDone s); [|eexists; reflexivity].
          unfold close. rewrite Hc. eexists; reflexivity. }
      destruct (run_nonclosing sched s1 Hrest) as (s' & Hrun & _).
      exists s'. cbn. rewrite Hstep. exact Hrun.
    + destruct (step_nonclosing act s Hact) as (s1 & Hstep & Hch).
      destruct (IH s1) as [s' Hrun]; [congruence | exact Hn |].
      exists s'. cbn. rewrite Hstep. exact Hrun.
Qed.

Lemma run_with_one_close_never_panics_witness :
  exists s',
    run [CallStart "ns" "pod" "step-build"; Open 0 None; Cancel; Bridge 0; Closer 0;
         Scan 0 None] NewTail = Ok s'.
Proof.
  apply (run_with_one_close_never_panics
           [CallStart "ns" "pod" "step-build"; Open 0 None; Cancel; Bridge 0; Closer 0;
            Scan 0 None] NewTail); [reflexivity | exact (le_n 1)].
Defined.

Lemma step_finished (i : nat) (act : Action) (s s' : Sys) :
  readerOf i s = Some Finished ->
  step act s = Ok s' ->
  readerOf i s' = Some Finished.
Proof.
  unfold readerOf. intros Hf Hstep.
  destruct (atts s !! i) as [a|] eqn:Hi; [|discriminate].
  cbn in Hf. injection Hf as Hf.
  enough (exists a', atts s' !! i = Some a' /\ reader a' = Finished)
    as (a' & -> & Ha') by (cbn; rewrite Ha'; reflexivity).
  destruct act as [ns podName container| | |j answer|j text|j|j]; cbn in Hstep.
  - injection Hstep as <-. cbn. exists a. split; [|exact Hf].
    apply lookup_app_l_Some, Hi.
  - apply Stop_Ok in Hstep as [_ ->]. cbn. eauto.
  - injection Hstep as <-. cbn. eauto.
  - injection Hstep as <-. unfold doOpen.
    destruct (atts s !! j) as [b|] eqn:Hj; [|eauto].
    destruct (reader b) as [ns podName container| |] eqn:Hr; [|eauto..].
    destruct answer as [err|]; cbn.
    + eapply (TailSpec.insert_keeps (fun x => reader x = Finished)); eauto.
    + eapply (TailSpec.insert_keeps (fun x => reader x = Finished)); eauto.
      intros ->. rewrite Hi in Hj. injection Hj as ->. congruence.
  - injection Hstep as <-. unfold doScan.
    destruct (atts s !! j) as [b|] eqn:Hj; [|eauto].
    destruct (reader b) as [| containerName |] eqn:Hr; [eauto| |eauto].
    destruct text as [line|]; cbn; [eauto|].
    eapply (TailSpec.insert_keeps (fun x => reader x = Finished)); eauto.
  - injection Hstep as <-. unfold doCloser.
    destruct (atts s !! j) as [b|] eqn:Hj; [|eauto].
    destruct (closer b); [eauto| |eauto].
    destruct (recvReady (stopCh s)); [|eauto]. cbn.
    eapply (TailSpec.insert_keeps (fun x => reader x = Finished)); eauto.
    intros ->. rewrite Hi in Hj. injection Hj as ->. exact Hf.
  - apply doBridge_Ok in Hstep as [-> | (b & Hj & _ & _ & _ & ->)]; [eauto|]. cbn.
    eapply (TailSpec.insert_keeps (fun x => reader x = Finished)); eauto.
    intros ->. rewrite Hi in Hj. injection Hj as ->. exact Hf.
Qed.

(** X18.  A reader that has returned, because the log request failed or
    because the stream ended, does not come back: whatever runs later it
    stays finished, and a scan or an open scheduled for it changes
    nothing, so it writes no further line and no further error. *)
Theorem finished_reader_stays_silent
    (i : nat) (sched : list Action) (s s' : Sys) :
  readerOf i s = Some Finished ->
  run sched s = Ok s' ->
  readerOf i s' = Some Finished /\
  (forall text, step (Scan i text) s' = Ok s') /\
  (forall answer, step (Open i answer) s' = Ok s').
Proof.
  intros Hf Hrun.
  assert (Hf' : readerOf i s' = Some Finished).
  { revert s Hf Hrun. induction sched as [|act sched IH]; intros s Hf Hrun; cbn in Hrun.
    - injection Hrun as <-. exact Hf.
    - destruct (step act s) as [s1|msg] eqn:Hstep; [|discriminate]. cbn in Hrun.
      eapply IH; [|exact Hrun]. eapply step_finished; eauto. }
  split; [exact Hf'|].
  unfold readerOf in Hf'. destruct (atts s' !! i) as [a|] eqn:Hi; [|discriminate].
  cbn in Hf'. injection Hf' as Hr.
  split; intros x; cbn; [unfold doScan | unfold doOpen]; rewrite Hi, Hr; reflexivity.
Qed.

Lemma finished_reader_stays_silent_witness :
  exists s',
    run [Scan 1 (Some "pushed"); CallStop; Closer 1]
      (doOpen 0 (Some "container not found") twoAttached) = Ok s' /\
    readerOf 0 s' = Some Finished /\
    step (Scan 0 (Some "late")) s' = Ok s'.
Proof.
  eexists. split; [reflexivity|].
  destruct (finished_reader_stays_silent 0
              [Scan 1 (Some "pushed"); CallStop; Closer 1]
              (doOpen 0 (Some "container not found") twoAttached) _
              eq_refl eq_refl) as (Hf & Hscan & _).
  split; [exact Hf | apply Hscan].
Defined.

(** X19.  [Start] does not look at the stop channel: an attachment started
    after the channel was closed opens its stream and writes the lines it
    reads like any other, until the goroutine that closes its stream gets
    to run. *)
Theorem Start_after_stop_still_attaches
    (s : Sys) (ns podName c text : string) :
  chan_closed (stopCh s) = true ->
  exists s',
    run [CallStart ns podName c; Open (length (atts s)) None;
         Scan (length (atts s)) (Some text)] s = Ok s' /\
    stdout s' = stdout s ++ [formatLine (TrimPrefix c "step-") text] /\
    readerOf (length (atts s)) s' = Some (Scanning (TrimPrefix c "step-")).
Proof.
  intros _. cbn. unfold doOpen. cbn.
  rewrite list_lookup_middle by reflexivity. cbn.
  unfold doScan. cbn.
  rewrite insert_app_r_alt by lia. rewrite Nat.sub_diag. cbn.
  rewrite list_lookup_middle by reflexivity. cbn.
  eexists. split; [reflexivity|]. split; [reflexivity|].
  unfold readerOf. cbn. rewrite list_lookup_middle by reflexivity. reflexivity.
Qed.

Lemma Start_after_stop_still_attaches_witness :
  exists s',
    run [CallStart "ns" "pod" "step-push"; Open 0 None; Scan 0 (Some "pushed")]
      (set_stopCh {| chan_cap := 1; chan_closed := true |} NewTail) = Ok s' /\
    stdout s' = ["[push] pushed" +:+ LF].
Proof.
  destruct (Start_after_stop_still_attaches
              (set_stopCh {| chan_cap := 1; chan_closed := true |} NewTail)
              "ns" "pod" "step-push" "pushed" eq_refl)
    as (s' & Hrun & Hout & _).
  exists s'. split; [exact Hrun | exact Hout].
Defined.

Lemma step_closeAccount (act : Action) (s s' : Sys) :
  Forall closeAccount (atts s) ->
  step act s = Ok s' ->
  Forall closeAccount (atts s').
Proof.
  intros Hall Hstep.
  assert (Hat : forall j b, atts s !! j = Some b -> closeAccount b)
    by (intros j b Hj; eapply Forall_lookup_1; eauto).
  destruct act as [ns podName container| | |j answer|j text|j|j]; cbn in Hstep.
  - injection Hstep as <-. cbn. apply Forall_app. split; [exact Hall|].
    constructor; [reflexivity | constructor].
  - apply Stop_Ok in Hstep as [_ ->]. exact Hall.
  - injection Hstep as <-. exact Hall.
  - injection Hstep as <-. unfold doOpen.
    destruct (atts s !! j) as [b|] eqn:Hj; [|exact Hall].
    specialize (Hat j b Hj).
    destruct b as [r cl br n]; cbn in *.
    destruct r; [|exact Hall..].
    destruct answer as [err|]; cbn; apply Forall_insert; try exact Hall;
      unfold closeAccount in *; cbn in *; destruct cl; try contradiction; exact Hat.
  - injection Hstep as <-. unfold doScan.
    destruct (atts s !! j) as [b|] eqn:Hj; [|exact Hall].
    specialize (Hat j b Hj).
    destruct b as [r cl br n]; cbn in *.
    destruct r; [exact Hall| |exact Hall].
    destruct text as [line|]; cbn; [exact Hall|].
    apply Forall_insert; [exact Hall|].
    unfold closeAccount in *; cbn in *; destruct cl; try contradiction; lia.
  - injection Hstep as <-. unfold doCloser.
    destruct (atts s !! j) as [b|] eqn:Hj; [|exact Hall].
    specialize (Hat j b Hj).
    destruct b as [r cl br n]; cbn in *.
    destruct cl; [exact Hall| |exact Hall].
    destruct (recvReady (stopCh s)); [|exact Hall]. cbn.
    apply Forall_insert; [exact Hall|].
    unfold closeAccount in *; cbn in *; destruct r; try contradiction; lia.
  - apply doBridge_Ok in Hstep as [-> | (b & Hj & _ & _ & _ & ->)]; [exact Hall|].
    cbn. apply Forall_insert; [exact Hall|]. exact (Hat j b Hj).
Qed.

(** X20.  Over any run of a new [Tail], [Close] is called on a stream only
    after it was opened and at most twice: not at all while the reader is
    opening or after a failed log request, once by the reader when it
    leaves its loop, and once by the goroutine that waits for the stop
    channel.  In particular a reader that has left its loop has closed its
    stream. *)
Theorem run_closeAccount (sched : list Action) (s : Sys) :
  run sched NewTail = Ok s ->
  Forall closeAccount (atts s).
Proof.
  assert (H : forall s0, Forall closeAccount (atts s0) ->
                run sched s0 = Ok s -> Forall closeAccount (atts s)).
  { induction sched as [|act sched IH]; intros s0 Hall Hrun; cbn in Hrun.
    - injection Hrun as <-. exact Hall.
    - destruct (step act s0) as [s1|msg] eqn:Hstep; [|discriminate]. cbn in Hrun.
      eapply IH; [|exact Hrun]. eapply step_closeAccount; eauto. }
  apply H. constructor.
Qed.

Lemma run_closeAccount_witness :
  Forall closeAccount
    (atts (doScan 1 None
             (doCloser 1 (set_stopCh {| chan_cap := 1; chan_closed := true |}
                            twoAttached)))).
Proof.
  apply (run_closeAccount
           [CallStart "ns" "pod" "step-build"; CallStart "ns" "pod" "step-push";
            Open 1 None; CallStop; Closer 1; Scan 1 None]).
  reflexivity.
Defined.

(** X21.  Every [Start] leaves a goroutine that closes the stop channel when
    the context is done, so with two attachments a cancellation panics: the
    second of the two goroutines to run, if not the first, closes a closed
    channel. *)
Theorem cancel_with_two_bridges_panics
    (s : Sys) (i j : nat) (a b : Attachment) :
  i <> j ->
  atts s !! i = Some a -> bridge a = Pending ->
  atts s !! j = Some b -> bridge b = Pending ->
  run [Cancel; Bridge i; Bridge j] s = Panic "close of closed channel".
Proof.
  intros Hne Hi Ha Hj Hb. cbn. unfold doBridge at 1. cbn. rewrite Hi, Ha.
  unfold close at 1. destruct (chan_closed (stopCh s)); [reflexivity|]. cbn.
  unfold doBridge. cbn. rewrite list_lookup_insert_ne by exact Hne.
  rewrite Hj, Hb. reflexivity.
Qed.

Lemma cancel_with_two_bridges_panics_witness :
  run [Cancel; Bridge 0; Bridge 1] twoAttached = Panic "close of closed channel".
Proof.
  apply (cancel_with_two_bridges_panics twoAttached 0 1
           {| reader := Opening "ns" "pod" "step-build"; closer := NotSpawned;
              bridge := Pending; streamCloses := 0 |}
           {| reader := Scanning "push"; closer := Pending;
              bridge := Pending; streamCloses := 0 |});
    [discriminate | reflexivity..].
Defined.

End TailMore.
